(** * just-browsing: document extraction, URL resolution and ASCII rasterization

    A shallow embedding of [main.go]: the recursive extractor
    [extractContent]/[extractFunc] with its shared line counter,
    [resolveURL], the body search of [renderHTML] and the loops, the integer
    arithmetic and the brightness computation of [imageToASCII], followed
    by the properties established about them. *)

From Stdlib Require Import ZArith List Bool Lia.
From Stdlib Require Import Strings.String Strings.Ascii.
From Stdlib Require Import NArith QArith Qround Lqa.
From Stdlib Require Import DecimalString DecimalZ DecimalPos.
Import ListNotations.

Open Scope string_scope.
Open Scope Z_scope.

(** ** Go strings

    A Go [string] is a sequence of bytes; it is modelled by [string], whose
    characters are the 256 byte values. *)

Definition code (c : ascii) : N := N_of_ascii c.

Definition nonEmpty (s : string) : bool := negb (s =? "")%string.

Definition string_rev (s : string) : string :=
  string_of_list_ascii (rev (list_ascii_of_string s)).

(** *** Bytes and separators *)

Definition ch (s : string) : ascii :=
  match s with String c _ => c | EmptyString => zero end.

(** [strings.Cut] with a one-byte separator. *)
Fixpoint cutByte (sep : ascii) (s : string) : string * string * bool :=
  match s with
  | EmptyString => ("", "", false)
  | String c r =>
      if Ascii.eqb c sep then ("", r, true)
      else let '(before, after, found) := cutByte sep r in
           (String c before, after, found)
  end.

Fixpoint countByte (sep : ascii) (s : string) : nat :=
  match s with
  | EmptyString => O
  | String c r => ((if Ascii.eqb c sep then 1 else 0) + countByte sep r)%nat
  end.

Definition containsByte (sep : ascii) (s : string) : bool :=
  negb (Nat.eqb (countByte sep s) 0).

(** The pieces of [s] between the occurrences of [sep], as the repeated
    [strings.Cut] of a loop meets them. *)
Fixpoint splitByte (sep : ascii) (s : string) : list string :=
  match s with
  | EmptyString => [""]
  | String c r =>
      if Ascii.eqb c sep then "" :: splitByte sep r
      else match splitByte sep r with
           | e :: es => String c e :: es
           | [] => [String c ""]
           end
  end.

Definition newline : string := String (ascii_of_nat 10) "".

(** *** [strings.TrimSpace]

    Go trims every leading and trailing rune with [unicode.IsSpace]: the six
    ASCII blanks, U+0085, U+00A0 and the runes of the White_Space property
    (U+1680, U+2000..U+200A, U+2028, U+2029, U+202F, U+205F, U+3000).  On the
    byte string that is the removal of the UTF-8 encodings of those runes; an
    ill-formed byte decodes to U+FFFD, which is no blank, and stops the
    trimming. *)

Definition asciiSpace (c : ascii) : bool :=
  let k := code c in
  (((9 <=? k) && (k <=? 13)) || (k =? 32))%N.

(** U+0085 and U+00A0: bytes C2 85 and C2 A0. *)
Definition space2 (c d : ascii) : bool :=
  ((code c =? 194) && ((code d =? 133) || (code d =? 160)))%N.

(** U+1680 (E1 9A 80), U+2000..U+200A, U+2028, U+2029, U+202F (E2 80 xx),
    U+205F (E2 81 9F), U+3000 (E3 80 80). *)
Definition space3 (c d e : ascii) : bool :=
  let '(c, d, e) := (code c, code d, code e) in
  (((c =? 225) && (d =? 154) && (e =? 128))
   || ((c =? 226) && (d =? 128)
       && (((128 <=? e) && (e <=? 138))
           || (e =? 168) || (e =? 169) || (e =? 175)))
   || ((c =? 226) && (d =? 129) && (e =? 159))
   || ((c =? 227) && (d =? 128) && (e =? 128)))%N.

(** [cutSpace s] removes one blank rune from the front of [s], if there is
    one. *)
Definition cutSpace (s : string) : option string :=
  match s with
  | String c r =>
      if asciiSpace c then Some r
      else match r with
           | String d r' =>
               if space2 c d then Some r'
               else match r' with
                    | String e r'' => if space3 c d e then Some r'' else None
                    | EmptyString => None
                    end
           | EmptyString => None
           end
  | EmptyString => None
  end.

(** The same from the back, on the reversed string: the bytes of a rune are
    met last byte first. *)
Definition cutSpaceRev (s : string) : option string :=
  match s with
  | String c r =>
      if asciiSpace c then Some r
      else match r with
           | String d r' =>
               if space2 d c then Some r'
               else match r' with
                    | String e r'' => if space3 e d c then Some r'' else None
                    | EmptyString => None
                    end
           | EmptyString => None
           end
  | EmptyString => None
  end.

Section Trim.
Variable cut : string -> option string.

(** Repeated removal; [fuel] bounds the number of runes removed. *)
Fixpoint trimWith (fuel : nat) (s : string) : string :=
  match fuel with
  | O => s
  | S fuel' =>
      match cut s with
      | Some r => trimWith fuel' r
      | None => s
      end
  end.
End Trim.

Definition TrimLeft (s : string) : string :=
  trimWith cutSpace (String.length s) s.

Definition TrimRight (s : string) : string :=
  string_rev (trimWith cutSpaceRev (String.length s) (string_rev s)).

Definition TrimSpace (s : string) : string := TrimRight (TrimLeft s).

(** ** The parsed document ([golang.org/x/net/html]) *)

Inductive NodeType : Set :=
  | ErrorNode | TextNode | DocumentNode | ElementNode
  | CommentNode | DoctypeNode | RawNode.

Definition NodeType_eqb (a b : NodeType) : bool :=
  match a, b with
  | ErrorNode, ErrorNode | TextNode, TextNode | DocumentNode, DocumentNode
  | ElementNode, ElementNode | CommentNode, CommentNode
  | DoctypeNode, DoctypeNode | RawNode, RawNode => true
  | _, _ => false
  end.

Record Attribute : Set := mkAttr { Key : string; Val : string }.

(** [html.Node]: the [FirstChild]/[NextSibling] chain is the list of
    children in document order. *)
#[warnings="-register-all"]
Inductive Node : Set :=
  | mkNode (Type_ : NodeType) (Data : string) (Attr : list Attribute)
           (Children : list Node).

Definition Type_ (n : Node) := let 'mkNode t _ _ _ := n in t.
Definition Data (n : Node) := let 'mkNode _ d _ _ := n in d.
Definition Attr (n : Node) := let 'mkNode _ _ a _ := n in a.
Definition Children (n : Node) := let 'mkNode _ _ _ cs := n in cs.

Definition isElement (t : NodeType) (d tag : string) : bool :=
  NodeType_eqb t ElementNode && (d =? tag)%string.

(** ** Results of the extraction *)

Record LinkInfo : Set := mkLink { Text : string; Href : string; Line : Z }.

Record ImageInfo : Set := mkImage { Src : string; Alt : string }.

(** ** The [net/url] package

    [resolveURL] and the extractor use three operations of Go's standard
    library; the development is parametric in them. *)

Class URLPackage := {
  URL : Type;
  Parse : string -> option URL;
  ResolveReference : URL -> URL -> URL;
  URLString : URL -> string
}.

Section Extraction.
Context {U : URLPackage}.

(** [resolveURL], lines 87-100. *)
Definition resolveURL (baseURL linkHref : string) : string :=
  match Parse baseURL with
  | None => linkHref
  | Some base =>
      match Parse linkHref with
      | None => linkHref
      | Some link => URLString (ResolveReference base link)
      end
  end.

(** The attribute loops: a later attribute with the same key overwrites
    an earlier one. *)
Fixpoint lastAttr (key : string) (attrs : list Attribute) (cur : string)
  : string :=
  match attrs with
  | [] => cur
  | a :: rest =>
      lastAttr key rest (if (Key a =? key)%string then Val a else cur)
  end.

(** What a call of [extractFunc] returns, and the value of the captured
    variable [lineCount] after it. *)
Definition Extracted : Set := (string * list LinkInfo * list ImageInfo)%type.

Section Loops.
Variable extractFunc : Node -> Z -> Z -> Extracted * Z.

(** Lines 189-192: every child is extracted with the anchor's own
    [currentLine]; only its text is kept, [lineCount] moves on. *)
Fixpoint linkTextLoop (cs : list Node) (currentLine : Z)
         (linkText : string) (lineCount : Z) : string * Z :=
  match cs with
  | [] => (linkText, lineCount)
  | c :: rest =>
      let '((childText, _, _), lineCount') :=
        extractFunc c currentLine lineCount in
      linkTextLoop rest currentLine (linkText ++ childText) lineCount'
  end.

(** Lines 233-238: every child is extracted with the value [lineCount]
    has when the loop reaches it. *)
Fixpoint childLoop (cs : list Node) (extractedText : string)
         (extractedLinks : list LinkInfo)
         (extractedImages : list ImageInfo) (lineCount : Z)
  : Extracted * Z :=
  match cs with
  | [] => ((extractedText, extractedLinks, extractedImages), lineCount)
  | c :: rest =>
      let '((childText, childLinks, childImages), lineCount') :=
        extractFunc c lineCount lineCount in
      childLoop rest
        (extractedText ++ childText)
        (extractedLinks ++ childLinks)
        (extractedImages ++ childImages)
        lineCount'
  end.
End Loops.

Variable currentURL : string.

(** [extractFunc], lines 171-241, with [lineCount] passed in and out.
    [lineCount] changes by [lineCount++] only, once for every visit of a
    text node; no run that ends brings it near the bounds of [int], and it
    is kept in [Z]. *)
Fixpoint extractFunc (n : Node) (currentLine lineCount : Z) {struct n}
  : Extracted * Z :=
  match n with
  | mkNode t d attrs cs =>
      if isElement t d "script" || isElement t d "style" then
        (("", [], []), lineCount)
      else
        let '(anchor, lineCount) :=
          if isElement t d "a" then
            let linkHref := lastAttr "href" attrs "" in
            let '(linkText, lineCount) :=
              linkTextLoop extractFunc cs currentLine "" lineCount in
            let linkText := TrimSpace linkText in
            if nonEmpty linkText && nonEmpty linkHref then
              let resolvedLink := resolveURL currentURL linkHref in
              (Some (linkText ++ " ",
                     [mkLink linkText resolvedLink currentLine],
                     @nil ImageInfo),
               lineCount)
            else (None, lineCount)
          else (None, lineCount) in
        match anchor with
        | Some r => (r, lineCount)
        | None =>
            let src := lastAttr "src" attrs "" in
            let alt := lastAttr "alt" attrs "" in
            if isElement t d "img" && nonEmpty src then
              let resolvedSrc := resolveURL currentURL src in
              ((alt ++ " ", [], [mkImage resolvedSrc alt]), lineCount)
            else if NodeType_eqb t TextNode then
              let extractedText := TrimSpace d in
              if nonEmpty extractedText then
                ((extractedText ++ newline, [], []),
                 lineCount + 1)
              else (("", [], []), lineCount)
            else childLoop extractFunc cs "" [] [] lineCount
        end
  end.

(** [extractContent], lines 164-245. *)
Definition extractContent (node : Node) : Extracted :=
  fst (extractFunc node 0 0).

End Extraction.

(** ** A model of [net/url]

    Go's [url.Parse], [URL.ResolveReference] and [URL.String] are not
    part of the repository.  The module follows their algorithms (RFC 3986,
    section 5.2) on URLs that need no escaping: no percent escapes, no
    userinfo, a host written with letters, digits, [-] and [.], and a path,
    query and fragment of characters that [String] prints as they are.
    The validation and the escaping Go performs beyond that are left out. *)

Module NetURL.

Record URL : Set := mkURL {
  Scheme : string;
  Opaque : string;
  Host : string;
  Path : string;
  OmitHost : bool;
  ForceQuery : bool;
  RawQuery : string;
  Fragment : string
}.

Definition hasPrefix (p s : string) : bool := String.prefix p s.

Definition hasSuffix (p s : string) : bool :=
  String.prefix (string_rev p) (string_rev s).

Definition dropLast (s : string) : string :=
  String.substring 0 (String.length s - 1) s.

(** [s[:i+1]] for [i := strings.LastIndex(s, "/")]: everything up to and
    including the last slash, nothing when there is none. *)
Fixpoint throughLastSlash (s : string) : string :=
  match s with
  | EmptyString => ""
  | String c r =>
      if containsByte (ch "/") r then String c (throughLastSlash r)
      else if Ascii.eqb c (ch "/") then "/" else ""
  end.

(** [s[:i]] for [i := strings.LastIndexByte(s, '/')], [None] for -1. *)
Definition beforeLastSlash (s : string) : option string :=
  if containsByte (ch "/") s then Some (dropLast (throughLastSlash s))
  else None.

Definition lowerByte (c : ascii) : ascii :=
  let k := code c in
  if ((65 <=? k) && (k <=? 90))%N then ascii_of_N (k + 32) else c.

Fixpoint toLower (s : string) : string :=
  match s with
  | EmptyString => ""
  | String c r => String (lowerByte c) (toLower r)
  end.

Fixpoint stringContainsCTLByte (s : string) : bool :=
  match s with
  | EmptyString => false
  | String c r =>
      ((code c <? 32) || (code c =? 127))%N || stringContainsCTLByte r
  end.

Definition isAlpha (c : ascii) : bool :=
  let k := code c in
  (((97 <=? k) && (k <=? 122)) || ((65 <=? k) && (k <=? 90)))%N.

Definition isSchemeExtra (c : ascii) : bool :=
  let k := code c in
  (((48 <=? k) && (k <=? 57)) || (k =? 43) || (k =? 45) || (k =? 46))%N.

(** [getScheme]: [None] is the error "missing protocol scheme". *)
Fixpoint getSchemeFrom (i : nat) (s : string)
  : option (option (string * string)) :=
  match s with
  | EmptyString => Some None
  | String c r =>
      if isAlpha c then
        match getSchemeFrom (S i) r with
        | Some (Some (sch, rest)) => Some (Some (String c sch, rest))
        | other => other
        end
      else if isSchemeExtra c then
        match i with
        | O => Some None
        | _ => match getSchemeFrom (S i) r with
               | Some (Some (sch, rest)) => Some (Some (String c sch, rest))
               | other => other
               end
        end
      else if Ascii.eqb c (ch ":") then
        match i with
        | O => None
        | _ => Some (Some ("", r))
        end
      else Some None
  end.

Definition getScheme (rawURL : string) : option (string * string) :=
  match getSchemeFrom 0 rawURL with
  | None => None
  | Some None => Some ("", rawURL)
  | Some (Some r) => Some r
  end.

(** [parse(rawURL, false)] *)
Definition parse (rawURL : string) : option URL :=
  if stringContainsCTLByte rawURL then None
  else if (rawURL =? "*")%string then
    Some (mkURL "" "" "" "*" false false "" "")
  else
    match getScheme rawURL with
    | None => None
    | Some (scheme, rest) =>
        let scheme := toLower scheme in
        let '(rest, force, query) :=
          if hasSuffix "?" rest && Nat.eqb (countByte (ch "?") rest) 1
          then (dropLast rest, true, "")
          else let '(r, q, _) := cutByte (ch "?") rest in (r, false, q) in
        if negb (hasPrefix "/" rest) && nonEmpty scheme then
          Some (mkURL scheme rest "" "" false force query "")
        else if negb (hasPrefix "/" rest)
                && containsByte (ch ":") (fst (fst (cutByte (ch "/") rest)))
        then None
        else if (nonEmpty scheme || negb (hasPrefix "///" rest))
                && hasPrefix "//" rest then
          let '(authority, after, found) :=
            cutByte (ch "/")
                    (String.substring 2 (String.length rest - 2) rest) in
          Some (mkURL scheme "" authority
                      (if found then String (ch "/") after else "")
                      false force query "")
        else
          Some (mkURL scheme "" "" rest
                      (nonEmpty scheme && hasPrefix "/" rest)
                      force query "")
    end.

(** [url.Parse]: the fragment is cut off first. *)
Definition Parse (rawURL : string) : option URL :=
  let '(u, frag, _) := cutByte (ch "#") rawURL in
  match parse u with
  | None => None
  | Some url =>
      Some (mkURL (Scheme url) (Opaque url) (Host url) (Path url)
                  (OmitHost url) (ForceQuery url) (RawQuery url) frag)
  end.

(** The loop of [resolvePath]: [dst] is the builder, which always starts
    with a slash. *)
Definition tail1 (s : string) : string :=
  match s with String _ r => r | EmptyString => "" end.

Fixpoint resolveElems (elems : list string) (dst : string) (first : bool)
         (last : string) : string * string :=
  match elems with
  | [] => (dst, last)
  | elem :: rest =>
      if (elem =? ".")%string then resolveElems rest dst false elem
      else if (elem =? "..")%string then
        match beforeLastSlash (tail1 dst) with
        | None => resolveElems rest "/" true elem
        | Some keep => resolveElems rest ("/" ++ keep) first elem
        end
      else
        resolveElems rest ((if first then dst else dst ++ "/") ++ elem)
                     false elem
  end.

Definition resolvePath (base ref : string) : string :=
  let full :=
    if (ref =? "")%string then base
    else if negb (Ascii.eqb (ch ref) (ch "/")) then throughLastSlash base ++ ref
    else ref in
  if (full =? "")%string then ""
  else
    let '(dst, elem) := resolveElems (splitByte (ch "/") full) "/" true "" in
    let r := if (elem =? ".")%string || (elem =? "..")%string
             then dst ++ "/" else dst in
    if (1 <? String.length r)%nat && Ascii.eqb (ch (tail1 r)) (ch "/")
    then tail1 r else r.

Definition withPath (u : URL) (p : string) : URL :=
  mkURL (Scheme u) (Opaque u) (Host u) p (OmitHost u) (ForceQuery u)
        (RawQuery u) (Fragment u).

(** [URL.ResolveReference] *)
Definition ResolveReference (u ref : URL) : URL :=
  let scheme := if nonEmpty (Scheme ref) then Scheme ref else Scheme u in
  let url := mkURL scheme (Opaque ref) (Host ref) (Path ref) (OmitHost ref)
                   (ForceQuery ref) (RawQuery ref) (Fragment ref) in
  if nonEmpty (Scheme ref) || nonEmpty (Host ref) then
    withPath url (resolvePath (Path ref) "")
  else if nonEmpty (Opaque ref) then
    mkURL scheme (Opaque ref) "" "" (OmitHost ref) (ForceQuery ref)
          (RawQuery ref) (Fragment ref)
  else
    let inherit :=
      negb (nonEmpty (Path ref)) && negb (ForceQuery ref)
      && negb (nonEmpty (RawQuery ref)) in
    let query := if inherit then RawQuery u else RawQuery ref in
    let frag := if inherit && negb (nonEmpty (Fragment ref))
                then Fragment u else Fragment ref in
    if negb (nonEmpty (Path ref)) && nonEmpty (Opaque u) then
      mkURL scheme (Opaque u) "" "" (OmitHost ref) (ForceQuery ref) query frag
    else
      mkURL scheme "" (Host u) (resolvePath (Path u) (Path ref))
            (OmitHost ref) (ForceQuery ref) query frag.

(** [URL.String] *)
Definition String_ (u : URL) : string :=
  let buf := if nonEmpty (Scheme u) then Scheme u ++ ":" else "" in
  let buf :=
    if nonEmpty (Opaque u) then buf ++ Opaque u
    else
      let buf :=
        if (nonEmpty (Scheme u) || nonEmpty (Host u))
           && negb (OmitHost u && negb (nonEmpty (Host u)))
        then (if nonEmpty (Host u) || nonEmpty (Path u)
              then buf ++ "//" else buf) ++ Host u
        else buf in
      let buf :=
        if nonEmpty (Path u) && negb (Ascii.eqb (ch (Path u)) (ch "/"))
           && nonEmpty (Host u)
        then buf ++ "/" else buf in
      let buf :=
        if (buf =? "")%string
           && containsByte (ch ":") (fst (fst (cutByte (ch "/") (Path u))))
        then buf ++ "./" else buf in
      buf ++ Path u in
  let buf :=
    if ForceQuery u || nonEmpty (RawQuery u)
    then buf ++ "?" ++ RawQuery u else buf in
  if nonEmpty (Fragment u) then buf ++ "#" ++ Fragment u else buf.

End NetURL.

#[export] Instance GoURL : URLPackage := {|
  URL := NetURL.URL;
  Parse := NetURL.Parse;
  ResolveReference := NetURL.ResolveReference;
  URLString := NetURL.String_
|}.

(** ** [renderHTML], lines 247-269

    [html.Parse] belongs to [golang.org/x/net/html]; the function is taken
    from the parsed document on.  [findBody] walks the whole document: a
    later body element that does not lie inside an earlier one overwrites
    the result. *)

Section Render.
Context {U : URLPackage}.
Variable currentURL : string.

Section FindLoop.
Variable findBody : Node -> Extracted -> Extracted.

Fixpoint findBodyLoop (cs : list Node) (body : Extracted) : Extracted :=
  match cs with
  | [] => body
  | c :: rest => findBodyLoop rest (findBody c body)
  end.
End FindLoop.

Fixpoint findBody (n : Node) (body : Extracted) {struct n} : Extracted :=
  match n with
  | mkNode t d _ cs =>
      if isElement t d "body" then extractContent currentURL n
      else findBodyLoop findBody cs body
  end.

Definition renderHTML (doc : Node) : Extracted :=
  findBody doc ("", [], []).
End Render.

(** The rows of a rendered text: its newline-delimited pieces. *)
Definition textRows (text : string) : list string :=
  splitByte (ch newline) text.

Definition element (tag : string) (attrs : list Attribute) (cs : list Node)
  : Node := mkNode ElementNode tag attrs cs.

Definition textNode (s : string) : Node := mkNode TextNode s [] [].

(** ** [imageToASCII], lines 142-161

    The function is taken from the decoded image on.  Go's [int] is a
    64-bit two's complement integer; [/] truncates towards zero and panics
    on a zero divisor. *)

Definition maxInt : Z := 2 ^ 63 - 1.

Definition wrap (z : Z) : Z := (z + 2 ^ 63) mod 2 ^ 64 - 2 ^ 63.

Definition int_sub (a b : Z) : Z := wrap (a - b).
Definition int_mul (a b : Z) : Z := wrap (a * b).
Definition int_quo (a b : Z) : Z := wrap (Z.quot a b).

Record Rectangle : Set := mkRect { MinX : Z; MinY : Z; MaxX : Z; MaxY : Z }.

Definition Dx (r : Rectangle) : Z := int_sub (MaxX r) (MinX r).
Definition Dy (r : Rectangle) : Z := int_sub (MaxY r) (MinY r).

(** The result of [color.Color.RGBA]: alpha-premultiplied 16-bit channels
    held in [uint32]. *)
Record Pixel : Set := mkPixel { R : Z; G : Z; B : Z; A : Z }.

Record Image : Set := mkImageOf { Bounds : Rectangle; At : Z -> Z -> Pixel }.

Definition asciiChars : list string :=
  [" "; "."; ":"; "-"; "="; "+"; "*"; "#"; "%"; "@"].

(** [asciiChars[i]]: [None] is the index-out-of-range panic. *)
Definition rampAt (i : Z) : option string :=
  if i <? 0 then None else nth_error asciiChars (Z.to_nat i).

Definition width : Z := 80.

Section Rasterizer.
(** Lines 154-155 compute [charIndex] from the channels in [float64]; the
    loops are parametric in that computation. *)
Variable charIndex : Z -> Z -> Z -> Z.

Variable img : Image.

(** The loop over [x], lines 148-157; [todo] iterations are left. *)
Fixpoint columnLoop (todo : nat) (height y x : Z) (ascii : string)
  : option string :=
  match todo with
  | O => Some ascii
  | S todo' =>
      let origX := int_quo (int_mul x (Dx (Bounds img))) width in
      let origY := int_quo (int_mul y (Dy (Bounds img))) height in
      let c := At img origX origY in
      match rampAt (charIndex (R c) (G c) (B c)) with
      | None => None
      | Some s => columnLoop todo' height y (x + 1) (ascii ++ s)
      end
  end.

(** The loop over [y], lines 147-159. *)
Fixpoint rowLoop (todo : nat) (height y : Z) (ascii : string)
  : option string :=
  match todo with
  | O => Some ascii
  | S todo' =>
      match columnLoop (Z.to_nat width) height y 0 ascii with
      | None => None
      | Some ascii' => rowLoop todo' height (y + 1) (ascii' ++ newline)
      end
  end.

(** [height], line 144; [None] is the division by zero. *)
Definition heightOf : option Z :=
  if Dx (Bounds img) =? 0 then None
  else Some (int_quo (int_mul width (Dy (Bounds img))) (Dx (Bounds img))).

Definition imageToASCII : option string :=
  match heightOf with
  | None => None
  | Some height => rowLoop (Z.to_nat height) height 0 ""
  end.
End Rasterizer.

(** A grid of character rows as the text [imageToASCII] builds: every row
    followed by a newline. *)
Fixpoint gridText (rows : list string) : string :=
  match rows with
  | [] => ""
  | r :: rest => r ++ newline ++ gridText rest
  end.

(** A row of the grid: [width] ramp characters, none of them a newline. *)
Definition gridRow (row : string) : Prop :=
  Z.of_nat (String.length row) = width
  /\ containsByte (ch newline) row = false.

(** ** The brightness computation, lines 154-155

    [float64] values are rational numbers, and every operation returns the
    rounding [rnd] of its exact result.  The rounding itself is a
    parameter; what is used of IEEE 754 round-to-nearest is that it is
    monotone and leaves a representable number unchanged.  Go allows a
    product to be fused with the sum that consumes it, in which case the
    product is not rounded on its own: [fuse1], [fuse2] and [fuse3] say
    so for the three products. *)

(** The numbers of [float64] (the infinities and NaN apart). *)
Definition binary64 (q : Q) : Prop :=
  exists m e : Z,
    (Z.abs m < 2 ^ 53)%Z /\ (-1074 <= e <= 971)%Z
    /\ (q == inject_Z m * (2 # 1) ^ e)%Q.

(** The conversion [int(f)] of a [float64] in the range of [int]: the
    fraction is discarded. *)
Definition truncate (q : Q) : Z :=
  if Qle_bool 0 q then Qfloor q else Qceiling q.

Section Brightness.
Variable rnd : Q -> Q.
Variables fuse1 fuse2 fuse3 : bool.

Definition product (fused : bool) (x y : Q) : Q :=
  if fused then (x * y)%Q else rnd (x * y)%Q.

(** [(0.299*float64(r) + 0.587*float64(g) + 0.114*float64(b)) / 65535.0];
    a constant is the [float64] nearest to it, and the conversion of a
    [uint32] is exact. *)
Definition brightness (r g b : Z) : Q :=
  let red := product fuse1 (rnd (299 # 1000)) (inject_Z r) in
  let green := product fuse2 (rnd (587 # 1000)) (inject_Z g) in
  let blue := product fuse3 (rnd (114 # 1000)) (inject_Z b) in
  rnd (rnd (rnd (red + green) + blue) / inject_Z 65535)%Q.

(** [int(brightness * float64(len(asciiChars)-1))] *)
Definition rampIndex (luminance : Q) : Z :=
  truncate
    (rnd (luminance * inject_Z (Z.of_nat (List.length asciiChars) - 1))%Q).

Definition charIndexOf (r g b : Z) : Z := rampIndex (brightness r g b).
End Brightness.

(** Exact arithmetic is one rounding. *)
Definition exact (q : Q) : Q := q.

(** ** What is stated about the extractor *)

(** The lines of a list of links do not decrease. *)
Fixpoint sortedLines (ls : list LinkInfo) : Prop :=
  match ls with
  | [] => True
  | l :: rest => Forall (fun l' => Line l <= Line l') rest /\ sortedLines rest
  end.

Definition linesWithin (lo hi : Z) (ls : list LinkInfo) : Prop :=
  Forall (fun l => lo <= Line l <= hi) ls.

Section ExtractorSpec.
Context {U : URLPackage}.
Variable currentURL : string.

(** A link as the anchor case builds it: trimmed text that is not empty,
    and the resolution of an [href] value that is not empty. *)
Definition builtLink (l : LinkInfo) : Prop :=
  Text l <> "" /\ TrimSpace (Text l) = Text l
  /\ exists href, href <> "" /\ Href l = resolveURL currentURL href.

Definition linksOf (r : Extracted * Z) : list LinkInfo := snd (fst (fst r)).
Definition counterOf (r : Extracted * Z) : Z := snd r.

(** What one call guarantees: the counter does not go back, every link
    is well built, and from [currentLine <= lineCount] on the lines of
    the links ascend between [currentLine] and the final counter. *)
Definition callOK (n : Node) : Prop :=
  forall cl lc,
    let r := extractFunc currentURL n cl lc in
    lc <= counterOf r
    /\ Forall builtLink (linksOf r)
    /\ (cl <= lc ->
        sortedLines (linksOf r) /\ linesWithin cl (counterOf r) (linksOf r)).
(** The value of [lineCount] with which a call enters the generic loop of
    lines 233-238; [None] when the call returns before the loop. *)
Definition entersLoop (n : Node) (cl lc : Z) : option Z :=
  match n with
  | mkNode t d attrs cs =>
      if isElement t d "script" || isElement t d "style" then None
      else if isElement t d "a" then
        let '(linkText, lc1) :=
          linkTextLoop (extractFunc currentURL) cs cl "" lc in
        if nonEmpty (TrimSpace linkText) && nonEmpty (lastAttr "href" attrs "")
        then None else Some lc1
      else if isElement t d "img" && nonEmpty (lastAttr "src" attrs "")
      then None
      else if NodeType_eqb t TextNode then None
      else Some lc
  end.

(** [reaches n cl lc m cl' lc']: while [extractFunc n cl lc] runs, the
    generic loops reach the node [m] and call [extractFunc m cl' lc'], that
    is with [lineCount] equal to [lc'] at that moment; the links of such a
    call are kept all the way up.  The calls made while an anchor collects
    its link text are not among them: their links are thrown away. *)
Inductive reaches : Node -> Z -> Z -> Node -> Z -> Z -> Prop :=
  | reaches_self n cl lc : reaches n cl lc n cl lc
  | reaches_child n cl lc k pre c post m cl' lc' :
      entersLoop n cl lc = Some k ->
      Children n = (pre ++ c :: post)%list ->
      reaches c (snd (childLoop (extractFunc currentURL) pre "" [] [] k))
                (snd (childLoop (extractFunc currentURL) pre "" [] [] k))
                m cl' lc' ->
      reaches n cl lc m cl' lc'.
End ExtractorSpec.

(** A base that does not parse, or that has a scheme, a host or a path. *)
Definition anchoredBase (baseURL : string) : bool :=
  match NetURL.Parse baseURL with
  | None => true
  | Some base =>
      nonEmpty (NetURL.Scheme base) || nonEmpty (NetURL.Host base)
      || nonEmpty (NetURL.Path base)
  end.

(** ** Further notions about documents *)

(** What of a result does not involve a URL: the text, the display text and
    the line of every link, the alt text of every image, and the counter. *)
Definition shape (r : Extracted * Z)
  : string * list (string * Z) * list string * Z :=
  (fst (fst (fst r)),
   map (fun l => (Text l, Line l)) (snd (fst (fst r))),
   map Alt (snd (fst r)),
   snd r).

(** Two extractions of a node agree in shape, from any line and counter. *)
Definition sameShape (U1 U2 : URLPackage) (base1 base2 : string) (n : Node)
  : Prop :=
  forall cl lc,
    shape (extractFunc (U := U1) base1 n cl lc)
    = shape (extractFunc (U := U2) base2 n cl lc).

(** A node that can be taken out of its parent: a script or style element,
    a text node whose data is blank, or a node without children that is
    neither a text node nor an image with a source. *)
Definition inert (n : Node) : bool :=
  match n with
  | mkNode t d attrs cs =>
      isElement t d "script" || isElement t d "style"
      || (NodeType_eqb t TextNode && negb (nonEmpty (TrimSpace d)))
      || (negb (NodeType_eqb t TextNode)
          && negb (isElement t d "img" && nonEmpty (lastAttr "src" attrs ""))
          && match cs with [] => true | _ :: _ => false end)
  end.

Section PruneLoop.
Variable prune : Node -> Node.

Fixpoint pruneChildren (cs : list Node) : list Node :=
  match cs with
  | [] => []
  | c :: rest =>
      if inert c then pruneChildren rest else prune c :: pruneChildren rest
  end.
End PruneLoop.

(** The document without its inert nodes, at every depth. *)
Fixpoint prune (n : Node) : Node :=
  match n with
  | mkNode t d attrs cs => mkNode t d attrs (pruneChildren prune cs)
  end.

(** The number of elements of a tree with a given tag. *)
Fixpoint countTag (tag : string) (n : Node) : nat :=
  match n with
  | mkNode t d _ cs =>
      ((if isElement t d tag then 1 else 0)
       + list_sum (map (countTag tag) cs))%nat
  end.

(** The body elements [findBody] meets: a walk in document order that does
    not enter a body. *)
Fixpoint bodies (n : Node) : list Node :=
  match n with
  | mkNode t d _ cs => if isElement t d "body" then [n] else flat_map bodies cs
  end.

(** An image as line 219 builds it: the resolution of a [src] value that is
    not empty. *)
Definition builtImage {U : URLPackage} (currentURL : string)
  (im : ImageInfo) : Prop :=
  exists src, src <> "" /\ Src im = resolveURL currentURL src.

(** Pruning a node changes nothing of its extraction. *)
Definition pruneSafe {U : URLPackage} (currentURL : string) (c : Node)
  : Prop :=
  forall cl lc,
    extractFunc currentURL (prune c) cl lc = extractFunc currentURL c cl lc.

(** What a call keeps of the anchors and images below it: no more links
    than anchor elements, no more images than image elements, and every
    image well built. *)
Definition countedCall {U : URLPackage} (currentURL : string) (n : Node)
  : Prop :=
  forall cl lc,
    (List.length (snd (fst (fst (extractFunc currentURL n cl lc))))
     <= countTag "a" n)%nat
    /\ (List.length (snd (fst (extractFunc currentURL n cl lc)))
        <= countTag "img" n)%nat
    /\ Forall (builtImage currentURL)
              (snd (fst (extractFunc currentURL n cl lc))).

(** [piece] occurs in [s]. *)
Definition occursIn (piece s : string) : Prop :=
  exists pre post, s = pre ++ piece ++ post.

(** The text of a result shows every link and every image of the result:
    the display text, or the alt text, followed by a space. *)
Definition shows (r : Extracted) : Prop :=
  Forall (fun l => occursIn (Text l ++ " ") (fst (fst r))) (snd (fst r))
  /\ Forall (fun im => occursIn (Alt im ++ " ") (fst (fst r))) (snd r).

(** ** The click handler, lines 290-325

    The loop of lines 299-322 stops at the first link whose line is the row
    of the click plus the scroll offset; [currentURL] becomes its [Href],
    which is then fetched. *)

Definition int_add (a b : Z) : Z := wrap (a + b).

Fixpoint firstOnLine (links : list LinkInfo) (y : Z) : option LinkInfo :=
  match links with
  | [] => None
  | link :: rest => if Line link =? y then Some link else firstOnLine rest y
  end.

Definition clickTarget (links : list LinkInfo) (eventY scrollOffset : Z)
  : option string :=
  option_map Href (firstOnLine links (int_add eventY scrollOffset)).

(** ** [fetchURL], lines 59-85

    [http.Get] and [io.ReadAll] belong to Go's library: the function is
    parametric in what a GET of a URL returns, and gives back the requests
    it has made together with its result.  Of an error the kind is kept,
    and the status line for a bad status. *)

Record Response : Set := mkResponse {
  StatusCode : Z;
  Status : string;
  Body : option string
}.

Inductive FetchError : Set :=
  | ErrorParsingURL
  | ErrorFetchingURL
  | BadStatus (status : string)
  | ErrorReadingBody.

Definition StatusOK : Z := 200.

Definition withScheme (u : NetURL.URL) (scheme : string) : NetURL.URL :=
  NetURL.mkURL scheme (NetURL.Opaque u) (NetURL.Host u) (NetURL.Path u)
               (NetURL.OmitHost u) (NetURL.ForceQuery u) (NetURL.RawQuery u)
               (NetURL.Fragment u).

(** The URL handed to [http.Get], lines 60-69; [None] when the input does
    not parse. *)
Definition fetchTarget (inputURL : string) : option string :=
  match NetURL.Parse inputURL with
  | None => None
  | Some parsedURL =>
      Some (NetURL.String_
              (if (NetURL.Scheme parsedURL =? "")%string
               then withScheme parsedURL "https" else parsedURL))
  end.


Section Fetch.
(** [None] is a transport error; the [Body] of a response is [None] when
    reading it fails. *)
Variable httpGet : string -> option Response.

Definition fetchURL (inputURL : string)
  : list string * (FetchError + string) :=
  match fetchTarget inputURL with
  | None => ([], inl ErrorParsingURL)
  | Some target =>
      match httpGet target with
      | None => ([target], inl ErrorFetchingURL)
      | Some resp =>
          if negb (StatusCode resp =? StatusOK)
          then ([target], inl (BadStatus (Status resp)))
          else match Body resp with
               | None => ([target], inl ErrorReadingBody)
               | Some body => ([target], inr body)
               end
      end
  end.
End Fetch.

Module Servers.
(** A server that answers every request with 206 and a body. *)
Definition partial (url : string) : option Response :=
  Some (mkResponse 206 "206 Partial Content" (Some "<body>x</body>")).

(** A server that answers every request with 200 and a body. *)
Definition plain (url : string) : option Response :=
  Some (mkResponse 200 "200 OK" (Some "<body>x</body>")).
End Servers.

(** ** Names of downloaded files, lines 53-57 and 109-114

    [filepath.Ext] and [filepath.Join] are Go's, for a system whose path
    separator is the slash; [fmt.Sprintf] with [%d] writes an integer in
    decimal.  The time stamp and the random suffix, which the code takes
    from the clock and from [math/rand], are arguments. *)

Module FilePath.

(** The loop of [Ext], on the reversed path: from the last byte back to the
    first dot, as long as no slash is met; [tail] is what has been passed. *)
Fixpoint extFrom (reversed tail : string) : string :=
  match reversed with
  | EmptyString => ""
  | String c r =>
      if Ascii.eqb c (ch "/") then ""
      else if Ascii.eqb c (ch ".") then String c tail
      else extFrom r (String c tail)
  end.

Definition Ext (path : string) : string := extFrom (string_rev path) "".

Fixpoint joinElems (elems : list string) : string :=
  match elems with
  | [] => ""
  | [e] => e
  | e :: rest => e ++ "/" ++ joinElems rest
  end.

(** The loop of [Clean], element by element: [out] holds the elements
    written so far, the last one first. *)
Fixpoint cleanElems (elems : list string) (rooted : bool)
         (out : list string) : list string :=
  match elems with
  | [] => out
  | e :: rest =>
      if (e =? "")%string || (e =? ".")%string then
        cleanElems rest rooted out
      else if (e =? "..")%string then
        match out with
        | top :: below =>
            if (top =? "..")%string
            then cleanElems rest rooted (e :: out)
            else cleanElems rest rooted below
        | [] =>
            if rooted then cleanElems rest rooted out
            else cleanElems rest rooted [e]
        end
      else cleanElems rest rooted (e :: out)
  end.

Definition Clean (path : string) : string :=
  if (path =? "")%string then "."
  else
    let rooted := Ascii.eqb (ch path) (ch "/") in
    let out := rev (cleanElems (splitByte (ch "/") path) rooted []) in
    if rooted then "/" ++ joinElems out
    else match out with
         | [] => "."
         | _ :: _ => joinElems out
         end.

(** [Join] of two elements. *)
Definition Join (a b : string) : string :=
  if nonEmpty a then Clean (a ++ "/" ++ b)
  else if nonEmpty b then Clean b
  else "".

End FilePath.

Definition downloadDir : string := "downloads".

(** [%d] *)
Definition decimal (z : Z) : string := NilZero.string_of_int (Z.to_int z).

(** [generateUniqueFilename], lines 53-57. *)
Definition generateUniqueFilename (timestamp randomSuffix : Z) (ext : string)
  : string :=
  FilePath.Join downloadDir
    ("img_" ++ decimal timestamp ++ "_" ++ decimal randomSuffix ++ ext).

(** The extension [downloadImage] passes on, lines 109-112. *)
Definition imageExt (imageURL : string) : string :=
  let ext := FilePath.Ext imageURL in
  if (ext =? "")%string then ".jpg" else ext.

(** ** Sample documents and images *)

Module Scenario.
(** The tree [html.Parse] builds for
    <body><p>Hello</p><a href="/x">link</a><img src="i.png" alt="pic"></body>. *)
Definition body : Node :=
  element "body" []
    [ element "p" [] [textNode "Hello"];
      element "a" [mkAttr "href" "/x"] [textNode "link"];
      element "img" [mkAttr "src" "i.png"; mkAttr "alt" "pic"] [] ].

Definition doc : Node :=
  mkNode DocumentNode "" []
    [ element "html" [] [ element "head" [] []; body ] ].

Definition base : string := "https://e.com/page".
End Scenario.

Module DegenerateAnchor.
(** <a>Hello<img src="i.png" alt="pic"></a>: an anchor with text and an
    image, and no [href]. *)
Definition children : list Node :=
  [ textNode "Hello";
    element "img" [mkAttr "src" "i.png"; mkAttr "alt" "pic"] [] ].

Definition anchor : Node := element "a" [] children.
End DegenerateAnchor.

Module DoubleCount.
(** <body><a>Sec</a><a href="/y">l</a></body>: a named anchor without
    [href] before a link. *)
Definition named : Node := element "a" [] [textNode "Sec"].

Definition link : Node := element "a" [mkAttr "href" "/y"] [textNode "l"].

Definition body : Node := element "body" [] [named; link].

(** The text nodes of a tree, in document order, that the extractor can
    emit: those with non-empty trimmed data outside script and style. *)
Fixpoint emittedTexts (n : Node) : list string :=
  match n with
  | mkNode t d _ cs =>
      if isElement t d "script" || isElement t d "style" then []
      else if NodeType_eqb t TextNode then
        (if nonEmpty (TrimSpace d) then [TrimSpace d] else [])
      else flat_map emittedTexts cs
  end.
End DoubleCount.

Module TwoLinks.
(** <body><p>Hello</p><a href="/x">one</a><p>more</p><a href="/y">two</a></body> *)
Definition body : Node :=
  element "body" []
    [ element "p" [] [textNode "Hello"];
      element "a" [mkAttr "href" "/x"] [textNode "one"];
      element "p" [] [textNode "more"];
      element "a" [mkAttr "href" "/y"] [textNode "two"] ].
End TwoLinks.

Module EmptyHref.
(** <body><a href="#">x</a></body> *)
Definition body : Node :=
  element "body" [] [ element "a" [mkAttr "href" "#"] [textNode "x"] ].
End EmptyHref.

Module Sample.
(** A white image three pixels wide and one pixel high. *)
Definition white : Pixel := mkPixel 65535 65535 65535 65535.
Definition strip : Image := mkImageOf (mkRect 0 0 3 1) (fun _ _ => white).
End Sample.

Module Pictures.
(** A white banner a hundred pixels wide and one pixel high. *)
Definition banner : Image :=
  mkImageOf (mkRect 0 0 100 1) (fun _ _ => Sample.white).

(** The strip of [Sample], black outside its three pixels. *)
Definition framed : Image :=
  mkImageOf (mkRect 0 0 3 1)
    (fun x y =>
       if (0 <=? x) && (x <? 3) && (0 <=? y) && (y <? 1)
       then Sample.white else mkPixel 0 0 0 65535).
End Pictures.

(** * Properties *)

(** ** Strings *)

Lemma nonEmpty_true (s : string) : nonEmpty s = true <-> s <> "".
Proof.
  unfold nonEmpty. rewrite negb_true_iff. apply String.eqb_neq.
Qed.

Lemma nonEmpty_false (s : string) : nonEmpty s = false <-> s = "".
Proof.
  unfold nonEmpty. rewrite negb_false_iff. apply String.eqb_eq.
Qed.

Lemma append_nil_r (s : string) : s ++ "" = s.
Proof. induction s; simpl; congruence. Qed.

Lemma append_assoc (a b c : string) : (a ++ b) ++ c = a ++ (b ++ c).
Proof. induction a; simpl; congruence. Qed.

Lemma append_length (a b : string) :
  String.length (a ++ b) = (String.length a + String.length b)%nat.
Proof. induction a; simpl; congruence. Qed.

Lemma list_of_append (a b : string) :
  list_ascii_of_string (a ++ b)
  = (list_ascii_of_string a ++ list_ascii_of_string b)%list.
Proof. induction a; simpl; congruence. Qed.

Lemma string_of_app (a b : list ascii) :
  string_of_list_ascii (a ++ b)
  = string_of_list_ascii a ++ string_of_list_ascii b.
Proof. induction a; simpl; congruence. Qed.

Lemma string_rev_append (a b : string) :
  string_rev (a ++ b) = string_rev b ++ string_rev a.
Proof.
  unfold string_rev. now rewrite list_of_append, rev_app_distr, string_of_app.
Qed.

Lemma string_rev_involutive (s : string) : string_rev (string_rev s) = s.
Proof.
  unfold string_rev.
  now rewrite list_ascii_of_string_of_list_ascii, rev_involutive,
    string_of_list_ascii_of_string.
Qed.

Lemma string_rev_length (s : string) :
  String.length (string_rev s) = String.length s.
Proof.
  induction s as [|c s IH]; [reflexivity|].
  change (String c s) with (String c "" ++ s).
  rewrite string_rev_append, !append_length, IH. simpl. lia.
Qed.

(** ** [strings.TrimSpace] *)

Section TrimFacts.
Variable cut : string -> option string.

(** What is cut off is a non-empty front part. *)
Hypothesis cut_front :
  forall s r, cut s = Some r -> exists p, p <> "" /\ s = p ++ r.

Lemma cut_shorter s r :
  cut s = Some r -> (String.length r < String.length s)%nat.
Proof.
  intros H. destruct (cut_front _ _ H) as (p & Hp & ->).
  rewrite append_length. destruct p; [congruence|simpl; lia].
Qed.

Lemma trimWith_stable fuel s : cut s = None -> trimWith cut fuel s = s.
Proof. intros H. destruct fuel; simpl; [|rewrite H]; reflexivity. Qed.

Lemma trimWith_done fuel :
  forall s, (String.length s <= fuel)%nat -> cut (trimWith cut fuel s) = None.
Proof.
  induction fuel as [|fuel IH]; intros s Hlen; simpl.
  - destruct (cut s) as [r|] eqn:E; [|reflexivity].
    apply cut_shorter in E. lia.
  - destruct (cut s) as [r|] eqn:E; [|assumption].
    apply IH. apply cut_shorter in E. lia.
Qed.

Lemma trimWith_back fuel :
  forall s, exists p, s = p ++ trimWith cut fuel s.
Proof.
  induction fuel as [|fuel IH]; intros s; simpl.
  - now exists "".
  - destruct (cut s) as [r|] eqn:E; [|now exists ""].
    destruct (cut_front _ _ E) as (p & _ & ->).
    destruct (IH r) as (q & Hq). exists (p ++ q).
    now rewrite append_assoc, <- Hq.
Qed.
End TrimFacts.

Lemma cutSpace_front s r :
  cutSpace s = Some r -> exists p, p <> "" /\ s = p ++ r.
Proof.
  unfold cutSpace. intros H.
  destruct s as [|c [|d [|e s]]]; try discriminate;
    repeat match type of H with
      | (if ?b then _ else _) = _ => destruct b
      end; inversion H; subst.
  all: first [ now exists (String c "")
             | now exists (String c (String d ""))
             | now exists (String c (String d (String e ""))) ].
Qed.

Lemma cutSpaceRev_front s r :
  cutSpaceRev s = Some r -> exists p, p <> "" /\ s = p ++ r.
Proof.
  unfold cutSpaceRev. intros H.
  destruct s as [|c [|d [|e s]]]; try discriminate;
    repeat match type of H with
      | (if ?b then _ else _) = _ => destruct b
      end; inversion H; subst.
  all: first [ now exists (String c "")
             | now exists (String c (String d ""))
             | now exists (String c (String d (String e ""))) ].
Qed.

(** A blank rune at the front of a string is at the front of every
    extension of it. *)
Lemma cutSpace_extend u v :
  cutSpace (u ++ v) = None -> cutSpace u = None.
Proof.
  unfold cutSpace.
  destruct u as [|c [|d [|e u]]]; simpl; try reflexivity;
    destruct (asciiSpace c); try discriminate; try reflexivity.
  - destruct (space2 c d); [discriminate|reflexivity].
  - destruct (space2 c d); [discriminate|].
    destruct (space3 c d e); [discriminate|reflexivity].
Qed.

Lemma TrimLeft_clean s : cutSpace (TrimLeft s) = None.
Proof. apply trimWith_done; [apply cutSpace_front|lia]. Qed.

Lemma TrimLeft_stable s : cutSpace s = None -> TrimLeft s = s.
Proof. apply trimWith_stable. Qed.

Lemma TrimRight_front s : exists w, s = TrimRight s ++ w.
Proof.
  unfold TrimRight.
  destruct (trimWith_back cutSpaceRev cutSpaceRev_front
              (String.length s) (string_rev s)) as (p & Hp).
  exists (string_rev p).
  rewrite <- string_rev_append, <- Hp. now rewrite string_rev_involutive.
Qed.

Lemma TrimRight_clean s : cutSpaceRev (string_rev (TrimRight s)) = None.
Proof.
  unfold TrimRight. rewrite string_rev_involutive.
  apply trimWith_done; [apply cutSpaceRev_front|].
  now rewrite string_rev_length.
Qed.

Lemma TrimRight_stable s :
  cutSpaceRev (string_rev s) = None -> TrimRight s = s.
Proof.
  intros H. unfold TrimRight.
  rewrite trimWith_stable by assumption. apply string_rev_involutive.
Qed.

(** Blanks, new lines and a no-break space (C2 A0) go from both ends, a blank
    inside stays, and a lone continuation byte stops the trimming. *)
Example TrimSpace_examples :
  TrimSpace ("  a b " ++ newline) = "a b"
  /\ TrimSpace (String (ascii_of_nat 194) (String (ascii_of_nat 160) " x")
                ++ String (ascii_of_nat 194) (String (ascii_of_nat 160) ""))
     = "x"
  /\ TrimSpace (" " ++ newline ++ " ") = ""
  /\ TrimSpace (String (ascii_of_nat 160) " x") = String (ascii_of_nat 160) " x".
Proof. repeat split. Qed.

(** Trimming twice is trimming once: a trimmed string has no blank rune
    at either end. *)
Lemma TrimSpace_idempotent s : TrimSpace (TrimSpace s) = TrimSpace s.
Proof.
  unfold TrimSpace.
  assert (Hl : cutSpace (TrimRight (TrimLeft s)) = None).
  { destruct (TrimRight_front (TrimLeft s)) as (w & Hw).
    apply cutSpace_extend with (v := w). rewrite <- Hw. apply TrimLeft_clean. }
  rewrite (TrimLeft_stable _ Hl).
  apply TrimRight_stable, TrimRight_clean.
Qed.

Lemma TrimSpace_ends s :
  cutSpace (TrimSpace s) = None
  /\ cutSpaceRev (string_rev (TrimSpace s)) = None.
Proof.
  split; [|apply TrimRight_clean].
  unfold TrimSpace.
  destruct (TrimRight_front (TrimLeft s)) as (w & Hw).
  apply cutSpace_extend with (v := w). rewrite <- Hw. apply TrimLeft_clean.
Qed.

(** ** The extractor *)

(** Induction on a document tree, with the hypothesis for every child. *)
Lemma Node_tree_ind (P : Node -> Prop)
  (step : forall t d attrs cs, Forall P cs -> P (mkNode t d attrs cs)) :
  forall n, P n.
Proof.
  fix IH 1. intros [t d attrs cs]. apply step.
  induction cs as [|c cs IHcs]; constructor; [apply IH|exact IHcs].
Qed.

Lemma sortedLines_app (a b : list LinkInfo) (mid : Z) :
  sortedLines a -> sortedLines b ->
  Forall (fun l => Line l <= mid) a -> Forall (fun l => mid <= Line l) b ->
  sortedLines (a ++ b).
Proof.
  intros Ha Hb Hlo Hhi. induction a as [|x a IH]; simpl; [assumption|].
  destruct Ha as [Hx Ha]. inversion Hlo as [|? ? Hxm Hlo']; subst.
  split; [|now apply IH].
  apply Forall_app. split; [assumption|].
  eapply Forall_impl; [|exact Hhi]. simpl. intros l Hl. lia.
Qed.

Lemma sortedLines_nth (ls : list LinkInfo) :
  sortedLines ls ->
  forall i j a b, (i < j)%nat ->
    nth_error ls i = Some a -> nth_error ls j = Some b -> Line a <= Line b.
Proof.
  induction ls as [|l ls IH]; intros Hs i j a b Hij Ha Hb.
  - destruct i; discriminate.
  - destruct Hs as [Hl Hs]. destruct j as [|j]; [lia|].
    destruct i as [|i]; simpl in Ha, Hb.
    + inversion Ha; subst. rewrite Forall_forall in Hl.
      apply Hl. eapply nth_error_In; eassumption.
    + apply (IH Hs i j); [lia|assumption..].
Qed.

Section ExtractorFacts.
Context {U : URLPackage}.
Variable currentURL : string.

Local Abbreviation extract := (extractFunc currentURL).

(** The body of [extractFunc], one case after the other. *)
Lemma extractFunc_pruned t d attrs cs cl lc :
  isElement t d "script" || isElement t d "style" = true ->
  extract (mkNode t d attrs cs) cl lc = (("", [], []), lc).
Proof. intros H. simpl. now rewrite H. Qed.

Lemma extractFunc_link attrs cs cl lc linkText lc1 :
  linkTextLoop extract cs cl "" lc = (linkText, lc1) ->
  TrimSpace linkText <> "" -> lastAttr "href" attrs "" <> "" ->
  extract (mkNode ElementNode "a" attrs cs) cl lc
  = ((TrimSpace linkText ++ " ",
      [mkLink (TrimSpace linkText)
              (resolveURL currentURL (lastAttr "href" attrs "")) cl],
      []), lc1).
Proof.
  intros Hloop Ht Hh. cbn [extractFunc]. cbv [isElement NodeType_eqb].
  cbn [andb orb String.eqb Ascii.eqb Bool.eqb]. rewrite Hloop.
  apply nonEmpty_true in Ht, Hh. now rewrite Ht, Hh.
Qed.

Lemma extractFunc_fallthrough attrs cs cl lc linkText lc1 :
  linkTextLoop extract cs cl "" lc = (linkText, lc1) ->
  TrimSpace linkText = "" \/ lastAttr "href" attrs "" = "" ->
  extract (mkNode ElementNode "a" attrs cs) cl lc
  = childLoop extract cs "" [] [] lc1.
Proof.
  intros Hloop Hdeg. cbn [extractFunc]. cbv [isElement NodeType_eqb].
  cbn [andb orb String.eqb Ascii.eqb Bool.eqb]. rewrite Hloop.
  assert (E : nonEmpty (TrimSpace linkText)
              && nonEmpty (lastAttr "href" attrs "") = false).
  { apply andb_false_iff.
    destruct Hdeg as [H|H]; [left|right]; now apply nonEmpty_false. }
  now rewrite E.
Qed.

Lemma extractFunc_container t d attrs cs cl lc :
  isElement t d "script" || isElement t d "style" = false ->
  isElement t d "a" = false ->
  isElement t d "img" && nonEmpty (lastAttr "src" attrs "") = false ->
  NodeType_eqb t TextNode = false ->
  extract (mkNode t d attrs cs) cl lc = childLoop extract cs "" [] [] lc.
Proof.
  intros H1 H2 H3 H4. cbn [extractFunc]. now rewrite H1, H2, H3, H4.
Qed.

Lemma linkTextLoop_counter cs :
  Forall (callOK currentURL) cs ->
  forall cl acc lc, lc <= snd (linkTextLoop extract cs cl acc lc).
Proof.
  induction 1 as [|c cs Hc _ IH]; intros cl acc lc; simpl; [lia|].
  specialize (Hc cl lc). simpl in Hc.
  destruct (extract c cl lc) as [[[t ls] ims] lc'].
  unfold counterOf in Hc. simpl in Hc.
  specialize (IH cl (acc ++ t) lc'). lia.
Qed.

Lemma childLoop_ok cs :
  Forall (callOK currentURL) cs ->
  forall text links images lo lc,
    lo <= lc -> Forall (builtLink currentURL) links ->
    sortedLines links -> linesWithin lo lc links ->
    let r := childLoop extract cs text links images lc in
    lc <= counterOf r
    /\ Forall (builtLink currentURL) (linksOf r)
    /\ sortedLines (linksOf r) /\ linesWithin lo (counterOf r) (linksOf r).
Proof.
  induction 1 as [|c cs Hc _ IH]; intros text links images lo lc Hlo Hb Hs Hw.
  - simpl. unfold counterOf, linksOf. simpl. repeat split; try assumption; lia.
  - simpl. specialize (Hc lc lc). simpl in Hc.
    destruct (extract c lc lc) as [[[t ls] ims] lc'].
    unfold counterOf, linksOf in Hc. simpl in Hc.
    destruct Hc as (Hmono & Hbuilt & Hsorted).
    destruct (Hsorted (Z.le_refl _)) as [Hsl Hwl].
    assert (Hstep :
      let r := childLoop extract cs (text ++ t) (links ++ ls)
                         (images ++ ims) lc' in
      lc' <= counterOf r /\ Forall (builtLink currentURL) (linksOf r)
      /\ sortedLines (linksOf r) /\ linesWithin lo (counterOf r) (linksOf r)).
    { apply IH.
      - lia.
      - apply Forall_app; now split.
      - apply sortedLines_app with (mid := lc); try assumption.
        + eapply Forall_impl; [|exact Hw]. simpl. intros; lia.
        + eapply Forall_impl; [|exact Hwl]. simpl. intros; lia.
      - apply Forall_app; split.
        + eapply Forall_impl; [|exact Hw]. simpl. intros; lia.
        + eapply Forall_impl; [|exact Hwl]. simpl. intros; lia. }
    simpl in Hstep. destruct Hstep as (H1 & H2 & H3 & H4).
    repeat split; try assumption. lia.
Qed.

Lemma extractFunc_ok : forall n, callOK currentURL n.
Proof.
  induction n as [t d attrs cs IH] using Node_tree_ind.
  intros cl lc.
  assert (Hleaf : forall text imgs k, lc <= k ->
    let r := ((text, [], imgs), k) : Extracted * Z in
    lc <= counterOf r /\ Forall (builtLink currentURL) (linksOf r)
    /\ (cl <= lc ->
        sortedLines (linksOf r) /\ linesWithin cl (counterOf r) (linksOf r))).
  { intros text imgs k Hk. unfold counterOf, linksOf, linesWithin. simpl.
    repeat split; auto. }
  assert (Hloop : forall k, lc <= k ->
    let r := childLoop extract cs "" [] [] k in
    lc <= counterOf r /\ Forall (builtLink currentURL) (linksOf r)
    /\ (cl <= lc ->
        sortedLines (linksOf r) /\ linesWithin cl (counterOf r) (linksOf r))).
  { intros k Hk.
    destruct (childLoop_ok cs IH "" [] [] k k (Z.le_refl _)
                (Forall_nil _) I (Forall_nil _)) as (H1 & H2 & H3 & H4).
    simpl. repeat split; try assumption; [lia|].
    eapply Forall_impl; [|exact H4]. simpl. intros; lia. }
  destruct (isElement t d "script" || isElement t d "style") eqn:Hp.
  { cbv zeta. rewrite (extractFunc_pruned _ _ _ _ _ _ Hp).
    apply Hleaf. lia. }
  destruct (isElement t d "a") eqn:Ha.
  { apply andb_true_iff in Ha. destruct Ha as [Ht Hd].
    apply String.eqb_eq in Hd. subst d.
    destruct t; try discriminate. clear Ht Hp.
    pose proof (linkTextLoop_counter cs IH cl "" lc) as Hprobe.
    destruct (linkTextLoop extract cs cl "" lc) as [linkText lc1] eqn:El.
    simpl in Hprobe.
    destruct (String.string_dec (TrimSpace linkText) "") as [Ht|Ht].
    { cbv zeta. rewrite (extractFunc_fallthrough _ _ _ _ _ _ El (or_introl Ht)).
      now apply Hloop. }
    destruct (String.string_dec (lastAttr "href" attrs "") "") as [Hh|Hh].
    { cbv zeta. rewrite (extractFunc_fallthrough _ _ _ _ _ _ El (or_intror Hh)).
      now apply Hloop. }
    cbv zeta. rewrite (extractFunc_link _ _ _ _ _ _ El Ht Hh).
    unfold counterOf, linksOf, linesWithin. simpl.
    split; [assumption|]. split.
    - constructor; [|constructor]. unfold builtLink. simpl.
      split; [assumption|]. split; [apply TrimSpace_idempotent|].
      now exists (lastAttr "href" attrs "").
    - intros Hcl. repeat split; auto. constructor; [simpl; lia|constructor]. }
  destruct (isElement t d "img" && nonEmpty (lastAttr "src" attrs "")) eqn:Hi.
  { cbv zeta. cbn [extractFunc]. rewrite Hp, Ha, Hi. apply Hleaf. lia. }
  destruct (NodeType_eqb t TextNode) eqn:Hx.
  { cbv zeta. cbn [extractFunc]. rewrite Hp, Ha, Hi, Hx.
    destruct (nonEmpty (TrimSpace d)); apply Hleaf; lia. }
  cbv zeta. rewrite (extractFunc_container _ _ _ _ _ _ Hp Ha Hi Hx).
  apply Hloop. lia.
Qed.
(** The counter a loop ends with does not depend on what it has gathered. *)
Lemma childLoop_counter cs :
  forall text links images lc,
    snd (childLoop extract cs text links images lc)
    = snd (childLoop extract cs "" [] [] lc).
Proof.
  induction cs as [|c cs IH]; intros text links images lc; cbn [childLoop];
    [reflexivity|].
  destruct (extract c lc lc) as [[[t ls] ims] lc'].
  rewrite IH. symmetry. apply IH.
Qed.

(** A link a loop returns was there before, or is a link of the call on
    one of the children. *)
Lemma childLoop_link cs :
  forall text links images lc l,
    In l (linksOf (childLoop extract cs text links images lc)) ->
    In l links
    \/ exists pre c post,
         cs = (pre ++ c :: post)%list
         /\ In l (linksOf
                    (extract c
                       (snd (childLoop extract pre "" [] [] lc))
                       (snd (childLoop extract pre "" [] [] lc)))).
Proof.
  induction cs as [|c cs IH]; intros text links images lc l Hin;
    cbn [childLoop] in Hin.
  - left. exact Hin.
  - destruct (extract c lc lc) as [[[t ls] ims] lc'] eqn:Ec.
    destruct (IH _ _ _ _ _ Hin) as [Hacc|(pre & c' & post & -> & Hc')].
    + apply in_app_or in Hacc. destruct Hacc as [Hacc|Hacc]; [now left|].
      right. exists [], c, cs. split; [reflexivity|].
      cbn [childLoop snd]. rewrite Ec. exact Hacc.
    + right. exists (c :: pre), c', post. split; [reflexivity|].
      cbn [childLoop]. rewrite Ec, childLoop_counter. exact Hc'.
Qed.

Lemma entersLoop_some n cl lc k :
  entersLoop currentURL n cl lc = Some k ->
  extract n cl lc = childLoop extract (Children n) "" [] [] k.
Proof.
  destruct n as [t d attrs cs]. cbn [entersLoop extractFunc Children].
  destruct (isElement t d "script" || isElement t d "style"); [discriminate|].
  destruct (isElement t d "a") eqn:Ea.
  - destruct (linkTextLoop extract cs cl "" lc) as [linkText lc1].
    destruct (nonEmpty (TrimSpace linkText)
              && nonEmpty (lastAttr "href" attrs "")); [discriminate|].
    intros H. inversion H; subst k.
    apply andb_true_iff in Ea. destruct Ea as [Ht Hd].
    apply String.eqb_eq in Hd. subst d. destruct t; try discriminate.
    reflexivity.
  - destruct (isElement t d "img" && nonEmpty (lastAttr "src" attrs ""));
      [discriminate|].
    destruct (NodeType_eqb t TextNode); [discriminate|].
    intros H. now inversion H.
Qed.

Lemma entersLoop_none n cl lc l :
  entersLoop currentURL n cl lc = None ->
  In l (linksOf (extract n cl lc)) ->
  linksOf (extract n cl lc) = [l] /\ Line l = cl
  /\ exists attrs cs, n = mkNode ElementNode "a" attrs cs.
Proof.
  destruct n as [t d attrs cs]. cbn [entersLoop extractFunc].
  destruct (isElement t d "script" || isElement t d "style");
    [intros _ []|].
  destruct (isElement t d "a") eqn:Ea.
  - destruct (linkTextLoop extract cs cl "" lc) as [linkText lc1].
    destruct (nonEmpty (TrimSpace linkText)
              && nonEmpty (lastAttr "href" attrs "")); [|discriminate].
    intros _ [<-|[]].
    apply andb_true_iff in Ea. destruct Ea as [Ht Hd].
    apply String.eqb_eq in Hd. subst d. destruct t; try discriminate.
    split; [reflexivity|]. split; [reflexivity|]. now exists attrs, cs.
  - destruct (isElement t d "img" && nonEmpty (lastAttr "src" attrs ""));
      [intros _ []|].
    destruct (NodeType_eqb t TextNode); [|discriminate].
    destruct (nonEmpty (TrimSpace d)); intros _ [].
Qed.

(** Every link that is returned was built by a call on an anchor that the
    generic loops reached, and its line is the [currentLine] of that
    call. *)
Lemma link_from_reached_anchor :
  forall n cl lc l,
    In l (linksOf (extract n cl lc)) ->
    exists attrs cs cl' lc',
      reaches currentURL n cl lc (mkNode ElementNode "a" attrs cs) cl' lc'
      /\ linksOf (extract (mkNode ElementNode "a" attrs cs) cl' lc') = [l]
      /\ Line l = cl'.
Proof.
  induction n as [t d attrs cs IH] using Node_tree_ind. intros cl lc l Hin.
  destruct (entersLoop currentURL (mkNode t d attrs cs) cl lc) as [k|] eqn:E.
  - rewrite (entersLoop_some _ _ _ _ E) in Hin. cbn [Children] in Hin.
    destruct (childLoop_link _ _ _ _ _ _ Hin)
      as [[]|(pre & c & post & Hcs & Hc)].
    rewrite Forall_forall in IH.
    assert (Hmem : In c cs) by (rewrite Hcs; apply in_elt).
    destruct (IH c Hmem _ _ _ Hc) as (attrs' & cs' & cl' & lc' & Hr & Hl & Hline).
    exists attrs', cs', cl', lc'. split; [|now split].
    eapply reaches_child; [exact E|exact Hcs|exact Hr].
  - destruct (entersLoop_none _ _ _ _ E Hin)
      as (Hl & Hline & attrs' & cs' & Hn).
    exists attrs', cs', cl, lc. rewrite <- Hn.
    split; [apply reaches_self|now split].
Qed.

(** Below the first call, a node is reached with [currentLine] equal to
    the [lineCount] of that moment. *)
Lemma reaches_counter n cl lc m cl' lc' :
  reaches currentURL n cl lc m cl' lc' -> cl = lc -> cl' = lc'.
Proof. induction 1; intros Heq; [exact Heq|now apply IHreaches]. Qed.
End ExtractorFacts.

(** ** Anchors without link text or without [href] *)




(** What the degenerate anchor above returns. *)
Example anchor_without_href_result :
  extractFunc Scenario.base DegenerateAnchor.anchor 0 0
  = (("Hello" ++ newline ++ "pic ", [],
      [mkImage "https://e.com/i.png" "pic"]), 2).
Proof. reflexivity. Qed.

(** ** The scenario of the specification *)

(** C2, as the specification states it, fails on the second row: the text
    is "Hello", a newline, "link pic " with the space that follows the
    image's [alt]. *)
Lemma scenario_rows_differ :
  textRows (fst (fst (renderHTML Scenario.base Scenario.doc)))
  <> ["Hello"; "link pic"].
Proof. vm_compute. discriminate. Qed.

(** C2, amended: the scenario document with base https://e.com/page gives
    the text "Hello\nlink pic " (rows "Hello" and "link pic ", the second
    ending with the space written after the image's alt text), exactly the
    link {link, https://e.com/x, 1} and exactly the image
    {https://e.com/i.png, pic}; [extractContent] on the body gives the
    same. *)
Theorem scenario_extraction :
  renderHTML Scenario.base Scenario.doc
  = ("Hello" ++ newline ++ "link pic ",
     [mkLink "link" "https://e.com/x" 1],
     [mkImage "https://e.com/i.png" "pic"])
  /\ extractContent Scenario.base Scenario.body
     = renderHTML Scenario.base Scenario.doc
  /\ textRows (fst (fst (renderHTML Scenario.base Scenario.doc)))
     = ["Hello"; "link pic "].
Proof. repeat split. Qed.

(** ** The line of a link *)

(** C3 at <body><a>Sec</a><a href="/y">l</a></body>: one non-empty text
    node, "Sec", is emitted before the link's anchor is entered, and one
    row precedes the link in the text; the link gets line 2.  The anchor
    of the link is reached when the counter is 2: "Sec" has been counted
    when the first anchor collected its link text, and again when that
    anchor fell through to the generic loop. *)
Theorem link_after_named_anchor_line :
  extractContent Scenario.base DoubleCount.body
  = ("Sec" ++ newline ++ "l ", [mkLink "l" "https://e.com/y" 2], [])
  /\ DoubleCount.emittedTexts DoubleCount.named = ["Sec"]
  /\ snd (extractFunc Scenario.base DoubleCount.named 0 0) = 2
  /\ reaches Scenario.base DoubleCount.body 0 0 DoubleCount.link 2 2.
Proof.
  split; [reflexivity|]. split; [reflexivity|]. split; [reflexivity|].
  apply (reaches_child Scenario.base DoubleCount.body 0 0 0
           [DoubleCount.named] DoubleCount.link []);
    [reflexivity|reflexivity|apply reaches_self].
Qed.

(** ** [resolveURL] *)

(** C4: when [url.Parse] rejects the base or the reference, [resolveURL]
    returns the reference as it is; when both parse, it returns the string
    of [ResolveReference] of the two.  [resolveURL] is a total function:
    there is no input on which it fails. *)
Theorem resolveURL_contract {U : URLPackage} (baseURL linkHref : string) :
  (Parse baseURL = None \/ Parse linkHref = None ->
   resolveURL baseURL linkHref = linkHref)
  /\ (forall base link,
        Parse baseURL = Some base -> Parse linkHref = Some link ->
        resolveURL baseURL linkHref
        = URLString (ResolveReference base link)).
Proof.
  unfold resolveURL. split.
  - intros [H|H].
    + now rewrite H.
    + rewrite H. now destruct (Parse baseURL).
  - intros base link Hb Hl. now rewrite Hb, Hl.
Qed.

Lemma resolveURL_contract_witness :
  resolveURL "https://e.com/page" ":x" = ":x"
  /\ resolveURL "https://e.com/page" "../a/./b?q#f" = "https://e.com/a/b?q#f".
Proof.
  split.
  - apply (resolveURL_contract (U := GoURL) "https://e.com/page" ":x").
    right. reflexivity.
  - destruct (resolveURL_contract (U := GoURL) "https://e.com/page"
                "../a/./b?q#f") as [_ H].
    rewrite (H _ _ eq_refl eq_refl). reflexivity.
Defined.

(** Reference resolution in the model of [net/url], on the examples of
    RFC 3986, section 5.4. *)
Example resolve_rfc3986 :
  map (resolveURL "http://a/b/c/d;p?q")
      ["g:h"; "g"; "./g"; "g/"; "/g"; "//g"; "?y"; "g?y"; "#s"; "g#s";
       ";x"; "g;x?y#s"; ""; "."; "./"; ".."; "../"; "../g"; "../.."; "../../g";
       "../../../g"; "/./g"; "g/./h"; "g/../h"]
  = ["g:h"; "http://a/b/c/g"; "http://a/b/c/g"; "http://a/b/c/g/";
     "http://a/g"; "http://g"; "http://a/b/c/d;p?y"; "http://a/b/c/g?y";
     "http://a/b/c/d;p?q#s"; "http://a/b/c/g#s"; "http://a/b/c/;x";
     "http://a/b/c/g;x?y#s"; "http://a/b/c/d;p?q"; "http://a/b/c/";
     "http://a/b/c/"; "http://a/b/"; "http://a/b/"; "http://a/b/g";
     "http://a/"; "http://a/g"; "http://a/g"; "http://a/g";
     "http://a/b/c/g/h"; "http://a/b/c/h"].
Proof. reflexivity. Qed.

(** ** Order of the links *)

(** C10: the lines of the links [extractContent] returns do not decrease
    along the list. *)
Theorem link_lines_ascend {U : URLPackage} (currentURL : string) (node : Node)
  (i j : nat) (a b : LinkInfo) :
  (i < j)%nat ->
  nth_error (snd (fst (extractContent currentURL node))) i = Some a ->
  nth_error (snd (fst (extractContent currentURL node))) j = Some b ->
  Line a <= Line b.
Proof.
  intros Hij Ha Hb.
  destruct (extractFunc_ok currentURL node 0 0) as (_ & _ & Hs).
  destruct (Hs (Z.le_refl 0)) as [Hsorted _].
  exact (sortedLines_nth _ Hsorted i j a b Hij Ha Hb).
Qed.

Lemma link_lines_ascend_witness :
  Line (mkLink "one" "https://e.com/x" 1)
  <= Line (mkLink "two" "https://e.com/y" 3).
Proof.
  apply (link_lines_ascend (U := GoURL) Scenario.base TwoLinks.body 0 1).
  - lia.
  - reflexivity.
  - reflexivity.
Defined.

Lemma truncate_monotone (x y : Q) : (x <= y)%Q -> truncate x <= truncate y.
Proof.
  intros Hxy. unfold truncate.
  destruct (Qle_bool 0 x) eqn:Ex, (Qle_bool 0 y) eqn:Ey.
  - now apply Qfloor_resp_le.
  - apply Qle_bool_iff in Ex.
    assert (H : (0 <= y)%Q) by (eapply Qle_trans; eassumption).
    apply Qle_bool_iff in H. congruence.
  - assert (Hx : (x <= 0)%Q).
    { destruct (Qlt_le_dec x 0) as [H|H]; [now apply Qlt_le_weak|].
      apply Qle_bool_iff in H. congruence. }
    apply Qle_bool_iff in Ey.
    apply Z.le_trans with 0.
    + change 0 with (Qceiling (inject_Z 0)). rewrite <- (Qceiling_Z 0).
      now apply Qceiling_resp_le.
    + rewrite <- (Qfloor_Z 0). now apply Qfloor_resp_le.
  - now apply Qceiling_resp_le.
Qed.

Section BrightnessFacts.
Variable rnd : Q -> Q.
Variables fuse1 fuse2 fuse3 : bool.

Hypothesis rnd_monotone : forall x y, (x <= y)%Q -> (rnd x <= rnd y)%Q.
Hypothesis rnd_exact : forall q, binary64 q -> (rnd q == q)%Q.

Lemma rnd_below x c : binary64 c -> (x <= c)%Q -> (rnd x <= c)%Q.
Proof.
  intros Hc Hx. rewrite <- (rnd_exact c Hc). now apply rnd_monotone.
Qed.

Lemma rnd_above x c : binary64 c -> (c <= x)%Q -> (c <= rnd x)%Q.
Proof.
  intros Hc Hx. rewrite <- (rnd_exact c Hc). now apply rnd_monotone.
Qed.

Ltac representable m e :=
  exists m, e; split; [vm_compute; reflexivity|];
  split; [lia|vm_compute; reflexivity].

Lemma product_bounds fused c x hi k :
  binary64 0%Q -> binary64 k ->
  (0 <= rnd c <= hi)%Q -> (0 <= x <= 65535)%Q ->
  (hi * 65535 <= k)%Q ->
  (0 <= product rnd fused (rnd c) x <= k)%Q.
Proof.
  intros H0 Hk Hc Hx Hhi.
  assert (Hp : (0 <= rnd c * x <= k)%Q).
  { split.
    - apply Qmult_le_0_compat; tauto.
    - eapply Qle_trans; [|exact Hhi].
      apply Qmult_le_compat_nonneg; tauto. }
  unfold product. destruct fused; [exact Hp|].
  split.
  - apply (rnd_above _ 0%Q); tauto.
  - apply rnd_below; tauto.
Qed.

Lemma brightness_bounds r g b :
  0 <= r <= 65535 -> 0 <= g <= 65535 -> 0 <= b <= 65535 ->
  (0 <= brightness rnd fuse1 fuse2 fuse3 r g b <= 17 # 16)%Q.
Proof.
  intros Hr Hg Hb.
  assert (B0 : binary64 0%Q) by representable 0%Z 0%Z.
  assert (C1 : (0 <= rnd (299 # 1000) <= 307 # 1024)%Q).
  { split.
    - apply (rnd_above _ 0%Q); [exact B0|discriminate].
    - apply rnd_below; [representable 307%Z (-10)%Z|discriminate]. }
  assert (C2 : (0 <= rnd (587 # 1000) <= 602 # 1024)%Q).
  { split.
    - apply (rnd_above _ 0%Q); [exact B0|discriminate].
    - apply rnd_below; [representable 301%Z (-9)%Z|discriminate]. }
  assert (C3 : (0 <= rnd (114 # 1000) <= 117 # 1024)%Q).
  { split.
    - apply (rnd_above _ 0%Q); [exact B0|discriminate].
    - apply rnd_below; [representable 117%Z (-10)%Z|discriminate]. }
  assert (Q : forall z, 0 <= z <= 65535 -> (0 <= inject_Z z <= 65535)%Q).
  { intros z Hz.
    split; [change 0%Q with (inject_Z 0)|change 65535%Q with (inject_Z 65535)];
      rewrite <- Zle_Qle; apply Hz. }
  pose proof (product_bounds fuse1 _ _ _ 19648%Q B0
                ltac:(representable 19648%Z 0%Z) C1 (Q r Hr)
                ltac:(discriminate)) as P1.
  pose proof (product_bounds fuse2 _ _ _ 38528%Q B0
                ltac:(representable 38528%Z 0%Z) C2 (Q g Hg)
                ltac:(discriminate)) as P2.
  pose proof (product_bounds fuse3 _ _ _ 7488%Q B0
                ltac:(representable 7488%Z 0%Z) C3 (Q b Hb)
                ltac:(discriminate)) as P3.
  unfold brightness.
  set (red := product rnd fuse1 _ _) in *.
  set (green := product rnd fuse2 _ _) in *.
  set (blue := product rnd fuse3 _ _) in *.
  assert (S1 : (0 <= rnd (red + green) <= 58176)%Q).
  { split.
    - apply (rnd_above _ 0%Q); [exact B0|]. lra.
    - apply rnd_below; [representable 58176%Z 0%Z|]. lra. }
  assert (S2 : (0 <= rnd (rnd (red + green) + blue) <= 65664)%Q).
  { split.
    - apply (rnd_above _ 0%Q); [exact B0|]. lra.
    - apply rnd_below; [representable 65664%Z 0%Z|]. lra. }
  set (total := rnd (rnd (red + green) + blue)) in *.
  change (inject_Z 65535) with 65535%Q.
  split.
  - apply (rnd_above _ 0%Q); [exact B0|].
    apply Qle_shift_div_l; [reflexivity|]. lra.
  - apply rnd_below; [representable 17%Z (-4)%Z|].
    apply Qle_shift_div_r; [reflexivity|]. lra.
Qed.

Lemma rampIndex_bounds (luminance : Q) :
  (0 <= luminance <= 17 # 16)%Q -> 0 <= rampIndex rnd luminance <= 9.
Proof.
  intros [Hlo Hhi]. unfold rampIndex.
  change (inject_Z (Z.of_nat (List.length asciiChars) - 1)) with 9%Q.
  set (v := rnd (luminance * 9)).
  assert (Hv : (0 <= v <= 39 # 4)%Q).
  { unfold v. split.
    - apply (rnd_above _ 0%Q); [representable 0%Z 0%Z|]. lra.
    - apply rnd_below; [representable 39%Z (-2)%Z|]. lra. }
  destruct Hv as [Hv0 Hv1]. split.
  - change 0 with (truncate 0%Q). now apply truncate_monotone.
  - change 9 with (truncate (39 # 4)). now apply truncate_monotone.
Qed.

Lemma rampIndex_monotone (l1 l2 : Q) :
  (l1 <= l2)%Q -> rampIndex rnd l1 <= rampIndex rnd l2.
Proof.
  intros H. unfold rampIndex. apply truncate_monotone, rnd_monotone.
  apply Qmult_le_compat_r; [exact H|]. discriminate.
Qed.
End BrightnessFacts.

(** ** The rasterizer *)

Lemma wrap_small (z : Z) : - 2 ^ 63 <= z < 2 ^ 63 -> wrap z = z.
Proof. intros H. unfold wrap. rewrite Z.mod_small; lia. Qed.

Lemma countByte_append (sep : ascii) (a b : string) :
  countByte sep (a ++ b) = (countByte sep a + countByte sep b)%nat.
Proof. induction a as [|c a IH]; simpl; [reflexivity|rewrite IH; lia]. Qed.

Lemma containsByte_append (sep : ascii) (a b : string) :
  containsByte sep a = false -> containsByte sep b = false ->
  containsByte sep (a ++ b) = false.
Proof.
  unfold containsByte. rewrite !negb_false_iff, !Nat.eqb_eq, countByte_append.
  lia.
Qed.

Lemma rampAt_valid (i : Z) :
  0 <= i <= 9 ->
  exists s, rampAt i = Some s /\ String.length s = 1%nat
            /\ containsByte (ch newline) s = false.
Proof.
  intros H.
  assert (E : i = 0 \/ i = 1 \/ i = 2 \/ i = 3 \/ i = 4 \/ i = 5 \/ i = 6
              \/ i = 7 \/ i = 8 \/ i = 9) by lia.
  repeat (destruct E as [->|E];
          [eexists; split; [reflexivity|split; reflexivity]|]).
  subst i. eexists; split; [reflexivity|split; reflexivity].
Qed.

Section RasterizerFacts.
Variable charIndex : Z -> Z -> Z -> Z.
Variable img : Image.

Hypothesis index_in_ramp :
  forall x y,
    0 <= charIndex (R (At img x y)) (G (At img x y)) (B (At img x y)) <= 9.

Lemma columnLoop_row todo :
  forall height y x ascii,
  exists row,
    columnLoop charIndex img todo height y x ascii = Some (ascii ++ row)
    /\ String.length row = todo
    /\ containsByte (ch newline) row = false.
Proof.
  induction todo as [|todo IH]; intros height y x ascii; cbn [columnLoop].
  - exists "". rewrite append_nil_r. split; [|split]; reflexivity.
  - set (ox := int_quo (int_mul x (Dx (Bounds img))) width).
    set (oy := int_quo (int_mul y (Dy (Bounds img))) height).
    destruct (rampAt_valid _ (index_in_ramp ox oy)) as (s & Hs & Hlen & Hnl).
    rewrite Hs.
    destruct (IH height y (x + 1) (ascii ++ s)) as (row & Hrow & Hl & Hn).
    exists (s ++ row). rewrite Hrow, append_assoc, append_length, Hlen, Hl.
    split; [reflexivity|]. split; [reflexivity|].
    now apply containsByte_append.
Qed.

Lemma rowLoop_grid todo :
  forall height y ascii,
  exists rows,
    rowLoop charIndex img todo height y ascii = Some (ascii ++ gridText rows)
    /\ List.length rows = todo
    /\ Forall gridRow rows.
Proof.
  induction todo as [|todo IH]; intros height y ascii; cbn [rowLoop].
  - exists []. cbn [gridText]. rewrite append_nil_r.
    split; [|split]; [reflexivity|reflexivity|constructor].
  - destruct (columnLoop_row (Z.to_nat width) height y 0 ascii)
      as (row & Hrow & Hlen & Hnl).
    rewrite Hrow.
    destruct (IH height (y + 1) ((ascii ++ row) ++ newline))
      as (rows & Hrows & Hl & Hall).
    exists (row :: rows). rewrite Hrows. cbn [gridText List.length].
    rewrite !append_assoc, Hl.
    split; [reflexivity|]. split; [reflexivity|].
    constructor; [|assumption].
    split; [|assumption]. rewrite Hlen. apply Z2Nat.id. discriminate.
Qed.
End RasterizerFacts.

Lemma heightOf_value (img : Image) :
  0 < Dx (Bounds img) -> 0 < Dy (Bounds img) ->
  width * Dy (Bounds img) <= maxInt ->
  heightOf img = Some (width * Dy (Bounds img) / Dx (Bounds img)).
Proof.
  intros Hx Hy Hmax. unfold heightOf, maxInt, width in *.
  destruct (Z.eqb_spec (Dx (Bounds img)) 0) as [E|_]; [lia|].
  f_equal. unfold int_mul, int_quo.
  rewrite (wrap_small (80 * Dy (Bounds img))) by lia.
  rewrite Z.quot_div_nonneg by lia.
  apply wrap_small.
  assert (0 <= 80 * Dy (Bounds img) / Dx (Bounds img)
          <= 80 * Dy (Bounds img)).
  { split; [apply Z.div_pos; lia|].
    apply Z.div_le_upper_bound; [lia|]. nia. }
  lia.
Qed.

(** C5: for a decoded image with positive dimensions (whose height times 80
    is an [int]), the grid [imageToASCII] writes has rows of 80 columns, and
    as many rows as the quotient of [80 * sourceHeight] by [sourceWidth],
    the remainder being dropped; the characters are written whenever the
    ramp index of every pixel is one of the ramp. *)
Theorem raster_grid_size (charIndex : Z -> Z -> Z -> Z) (img : Image) :
  0 < Dx (Bounds img) -> 0 < Dy (Bounds img) ->
  width * Dy (Bounds img) <= maxInt ->
  (forall x y,
     0 <= charIndex (R (At img x y)) (G (At img x y)) (B (At img x y)) <= 9) ->
  exists height,
    heightOf img = Some height
    /\ height = 80 * Dy (Bounds img) / Dx (Bounds img)
    /\ height * Dx (Bounds img) <= 80 * Dy (Bounds img)
       < (height + 1) * Dx (Bounds img)
    /\ exists rows,
         imageToASCII charIndex img = Some (gridText rows)
         /\ Z.of_nat (List.length rows) = height
         /\ Forall gridRow rows.
Proof.
  intros Hx Hy Hmax Hidx.
  pose proof (heightOf_value img Hx Hy Hmax) as Hh.
  change width with 80 in Hh.
  set (height := 80 * Dy (Bounds img) / Dx (Bounds img)) in *.
  exists height. split; [exact Hh|]. split; [reflexivity|]. split.
  - unfold height.
    pose proof (Z.mul_div_le (80 * Dy (Bounds img)) _ Hx).
    pose proof (Z.mul_succ_div_gt (80 * Dy (Bounds img)) _ Hx).
    lia.
  - unfold imageToASCII. rewrite Hh.
    destruct (rowLoop_grid charIndex img Hidx (Z.to_nat height) height 0 "")
      as (rows & Hrows & Hlen & Hall).
    exists rows. split; [exact Hrows|]. split; [|exact Hall].
    rewrite Hlen. apply Z2Nat.id. unfold height. apply Z.div_pos; lia.
Qed.

Lemma raster_grid_size_witness :
  exists height,
    heightOf Sample.strip = Some height
    /\ height = 80 * Dy (Bounds Sample.strip) / Dx (Bounds Sample.strip)
    /\ height * Dx (Bounds Sample.strip) <= 80 * Dy (Bounds Sample.strip)
       < (height + 1) * Dx (Bounds Sample.strip)
    /\ exists rows,
         imageToASCII (charIndexOf exact false false false) Sample.strip
         = Some (gridText rows)
         /\ Z.of_nat (List.length rows) = height
         /\ Forall gridRow rows.
Proof.
  apply (raster_grid_size (charIndexOf exact false false false) Sample.strip).
  - reflexivity.
  - reflexivity.
  - discriminate.
  - intros x y. vm_compute. split; discriminate.
Defined.

(** The strip is 80 columns by 26 rows: 80 / 3 with the fraction dropped. *)
Example strip_height : heightOf Sample.strip = Some 26.
Proof. reflexivity. Qed.

(** C6: the ramp index does not decrease with the luminance: of two
    computed luminance values in strictly increasing order, the second gets
    an index at least that of the first; so it is for the brightness of any
    two pixels. *)
Theorem ramp_index_monotone (rnd : Q -> Q) :
  (forall x y, (x <= y)%Q -> (rnd x <= rnd y)%Q) ->
  (forall l1 l2 : Q, (l1 < l2)%Q -> rampIndex rnd l1 <= rampIndex rnd l2)
  /\ (forall (fuse1 fuse2 fuse3 : bool) (r1 g1 b1 r2 g2 b2 : Z),
        (brightness rnd fuse1 fuse2 fuse3 r1 g1 b1
         < brightness rnd fuse1 fuse2 fuse3 r2 g2 b2)%Q ->
        charIndexOf rnd fuse1 fuse2 fuse3 r1 g1 b1
        <= charIndexOf rnd fuse1 fuse2 fuse3 r2 g2 b2).
Proof.
  intros Hmono. split.
  - intros l1 l2 Hlt.
    apply rampIndex_monotone; [exact Hmono|]. now apply Qlt_le_weak.
  - intros fuse1 fuse2 fuse3 r1 g1 b1 r2 g2 b2 Hlt. unfold charIndexOf.
    apply rampIndex_monotone; [exact Hmono|]. now apply Qlt_le_weak.
Qed.

Lemma ramp_index_monotone_witness :
  rampIndex exact (1 # 3) <= rampIndex exact (1 # 2)
  /\ charIndexOf exact false false false 0 0 0
     <= charIndexOf exact false false false 65535 65535 65535.
Proof.
  destruct (ramp_index_monotone exact (fun x y H => H)) as [Hlum Hpix].
  split.
  - apply Hlum. reflexivity.
  - apply Hpix. reflexivity.
Defined.

(** C8: for channel values between 0 and 65535 the ramp index lies between
    0 and 9, [asciiChars[charIndex]] is one of the ten ramp characters, and
    the loops of [imageToASCII] over an image of such pixels never stop
    with an index out of range. *)
Theorem ramp_index_in_range (rnd : Q -> Q) (fuse1 fuse2 fuse3 : bool)
  (r g b : Z) :
  (forall x y, (x <= y)%Q -> (rnd x <= rnd y)%Q) ->
  (forall q, binary64 q -> (rnd q == q)%Q) ->
  0 <= r <= 65535 -> 0 <= g <= 65535 -> 0 <= b <= 65535 ->
  0 <= charIndexOf rnd fuse1 fuse2 fuse3 r g b <= 9
  /\ (exists s, rampAt (charIndexOf rnd fuse1 fuse2 fuse3 r g b) = Some s
                /\ In s asciiChars)
  /\ (forall img : Image,
        (forall x y, 0 <= R (At img x y) <= 65535
                     /\ 0 <= G (At img x y) <= 65535
                     /\ 0 <= B (At img x y) <= 65535) ->
        forall rows height,
          rowLoop (charIndexOf rnd fuse1 fuse2 fuse3) img rows height 0 ""
          <> None).
Proof.
  intros Hmono Hexact Hr Hg Hb.
  assert (Hrange : forall r g b,
            0 <= r <= 65535 -> 0 <= g <= 65535 -> 0 <= b <= 65535 ->
            0 <= charIndexOf rnd fuse1 fuse2 fuse3 r g b <= 9).
  { intros. unfold charIndexOf.
    apply rampIndex_bounds; [assumption..|].
    now apply brightness_bounds. }
  split; [now apply Hrange|]. split.
  - destruct (rampAt_valid _ (Hrange r g b Hr Hg Hb)) as (s & Hs & _).
    exists s. split; [exact Hs|].
    unfold rampAt in Hs.
    destruct (charIndexOf rnd fuse1 fuse2 fuse3 r g b <? 0); [discriminate|].
    eapply nth_error_In; exact Hs.
  - intros img Hpix rows height.
    destruct (rowLoop_grid (charIndexOf rnd fuse1 fuse2 fuse3) img
                (fun x y => Hrange _ _ _ (proj1 (Hpix x y))
                              (proj1 (proj2 (Hpix x y)))
                              (proj2 (proj2 (Hpix x y))))
                rows height 0 "") as (grid & Hgrid & _).
    rewrite Hgrid. discriminate.
Qed.

Lemma ramp_index_in_range_witness :
  0 <= charIndexOf exact false false false 65535 65535 65535 <= 9
  /\ (exists s,
        rampAt (charIndexOf exact false false false 65535 65535 65535) = Some s
        /\ In s asciiChars)
  /\ (forall img : Image,
        (forall x y, 0 <= R (At img x y) <= 65535
                     /\ 0 <= G (At img x y) <= 65535
                     /\ 0 <= B (At img x y) <= 65535) ->
        forall rows height,
          rowLoop (charIndexOf exact false false false) img rows height 0 ""
          <> None).
Proof.
  apply (ramp_index_in_range exact false false false).
  - intros x y H. exact H.
  - intros q _. reflexivity.
  - lia.
  - lia.
  - lia.
Defined.

(** In exact arithmetic black is the first ramp character and white the
    last. *)
Example exact_ramp_ends :
  rampAt (charIndexOf exact false false false 0 0 0) = Some " "
  /\ rampAt (charIndexOf exact false false false 65535 65535 65535) = Some "@".
Proof. split; reflexivity. Qed.

(** ** Well-formed links *)

Lemma append_nonempty_l (a b : string) : a <> "" -> a ++ b <> "".
Proof. destruct a; [congruence|discriminate]. Qed.

Lemma append_nonempty_r (a b : string) : b <> "" -> a ++ b <> "".
Proof. destruct a; [trivial|discriminate]. Qed.

Lemma String_nonempty (u : NetURL.URL) :
  nonEmpty (NetURL.Scheme u) || nonEmpty (NetURL.Opaque u)
  || nonEmpty (NetURL.Host u) || nonEmpty (NetURL.Path u) = true ->
  NetURL.String_ u <> "".
Proof.
  destruct u as [scheme opaque host path omit force query frag].
  unfold NetURL.String_. cbn [NetURL.Scheme NetURL.Opaque NetURL.Host
    NetURL.Path NetURL.OmitHost NetURL.ForceQuery NetURL.RawQuery
    NetURL.Fragment].
  intros H.
  assert (Hcore :
    (if nonEmpty opaque
     then (if nonEmpty scheme then scheme ++ ":" else "") ++ opaque
     else
       (let buf :=
          if (nonEmpty scheme || nonEmpty host)
             && negb (omit && negb (nonEmpty host))
          then (if nonEmpty host || nonEmpty path
                then (if nonEmpty scheme then scheme ++ ":" else "") ++ "//"
                else (if nonEmpty scheme then scheme ++ ":" else "")) ++ host
          else (if nonEmpty scheme then scheme ++ ":" else "") in
        let buf :=
          if nonEmpty path && negb (Ascii.eqb (ch path) (ch "/"))
             && nonEmpty host
          then buf ++ "/" else buf in
        let buf :=
          if (buf =? "")%string
             && containsByte (ch ":") (fst (fst (cutByte (ch "/") path)))
          then buf ++ "./" else buf in
        buf ++ path)) <> "").
  { destruct (nonEmpty opaque) eqn:Eo.
    { apply append_nonempty_r. now apply nonEmpty_true. }
    cbv zeta.
    destruct (nonEmpty path) eqn:Ep.
    { apply append_nonempty_r. now apply nonEmpty_true. }
    apply append_nonempty_l.
    rewrite orb_false_r in H. cbn [andb] in *.
    destruct (nonEmpty scheme) eqn:Es.
    { apply nonEmpty_true in Es.
      repeat match goal with
             | |- context [if ?c then _ else _] => destruct c
             end;
        repeat apply append_nonempty_l; exact Es. }
    cbn [orb] in H. rewrite H. cbn [orb andb negb].
    rewrite andb_false_r. cbn [negb append].
    match goal with
    | |- context [if ?c then _ else _] => destruct c
    end; discriminate. }
  set (core := if nonEmpty opaque then _ else _) in *.
  destruct (force || nonEmpty query), (nonEmpty frag);
    repeat apply append_nonempty_l; exact Hcore.
Qed.

Lemma resolveElems_nonempty (elems : list string) :
  forall dst first last,
    dst <> "" -> fst (NetURL.resolveElems elems dst first last) <> "".
Proof.
  induction elems as [|elem rest IH]; intros dst first last Hd;
    cbn [NetURL.resolveElems]; [exact Hd|].
  destruct (elem =? ".")%string; [now apply IH|].
  destruct (elem =? "..")%string.
  - destruct (NetURL.beforeLastSlash (NetURL.tail1 dst));
      apply IH; discriminate.
  - apply IH. apply append_nonempty_l.
    destruct first; [exact Hd|now apply append_nonempty_l].
Qed.

Lemma resolvePath_nonempty (base ref : string) :
  base <> "" -> NetURL.resolvePath base ref <> "".
Proof.
  intros Hb. unfold NetURL.resolvePath.
  set (full := if (ref =? "")%string then base else _).
  assert (Hfull : full <> "").
  { unfold full. destruct (String.eqb_spec ref "") as [->|Hr]; [exact Hb|].
    destruct (negb (Ascii.eqb (ch ref) (ch "/")));
      [now apply append_nonempty_r|exact Hr]. }
  apply String.eqb_neq in Hfull. rewrite Hfull.
  pose proof (resolveElems_nonempty (splitByte (ch "/") full) "/" true ""
                ltac:(discriminate)) as Hdst.
  destruct (NetURL.resolveElems (splitByte (ch "/") full) "/" true "")
    as [dst elem]. cbn [fst] in Hdst.
  set (r := if (elem =? ".")%string || (elem =? "..")%string
            then dst ++ "/" else dst).
  assert (Hr : r <> "").
  { unfold r. destruct ((elem =? ".")%string || (elem =? "..")%string);
      [now apply append_nonempty_l|exact Hdst]. }
  destruct r as [|c [|d r']]; [congruence|cbn; discriminate|].
  cbn [String.length Nat.ltb Nat.leb NetURL.tail1 andb].
  destruct (Ascii.eqb (ch (String d r')) (ch "/")); discriminate.
Qed.

(** Against an anchored base every reference resolves to a string that is
    not empty. *)
Lemma resolved_nonempty (base ref : NetURL.URL) :
  nonEmpty (NetURL.Scheme base) || nonEmpty (NetURL.Host base)
  || nonEmpty (NetURL.Path base) = true ->
  NetURL.String_ (NetURL.ResolveReference base ref) <> "".
Proof.
  intros Hbase. apply String_nonempty. unfold NetURL.ResolveReference.
  destruct (nonEmpty (NetURL.Scheme ref) || nonEmpty (NetURL.Host ref)) eqn:E1.
  { cbn [NetURL.withPath NetURL.Scheme NetURL.Opaque NetURL.Host NetURL.Path].
    apply orb_true_iff in E1.
    destruct E1 as [E|E]; repeat rewrite E; cbn iota;
      repeat rewrite E; now rewrite ?orb_true_r. }
  apply orb_false_iff in E1. destruct E1 as [Es Eh]. rewrite Es.
  destruct (nonEmpty (NetURL.Opaque ref)) eqn:Eo.
  { cbn [NetURL.Scheme NetURL.Opaque NetURL.Host NetURL.Path].
    rewrite Eo. now rewrite orb_true_r. }
  destruct (negb (nonEmpty (NetURL.Path ref)) && nonEmpty (NetURL.Opaque base))
    eqn:E2.
  { cbn [NetURL.Scheme NetURL.Opaque NetURL.Host NetURL.Path].
    apply andb_true_iff in E2. destruct E2 as [_ E2]. rewrite E2.
    now rewrite orb_true_r. }
  cbn [NetURL.Scheme NetURL.Opaque NetURL.Host NetURL.Path].
  destruct (nonEmpty (NetURL.Scheme base)); [reflexivity|].
  destruct (nonEmpty (NetURL.Host base)); [now rewrite orb_true_r|].
  cbn [orb] in Hbase |- *.
  apply nonEmpty_true. apply resolvePath_nonempty. now apply nonEmpty_true.
Qed.

Lemma resolveURL_nonempty (baseURL href : string) :
  anchoredBase baseURL = true -> href <> "" ->
  resolveURL (U := GoURL) baseURL href <> "".
Proof.
  unfold anchoredBase, resolveURL. cbn [Parse GoURL URLString ResolveReference].
  intros Hbase Hhref.
  destruct (NetURL.Parse baseURL) as [base|]; [|exact Hhref].
  destruct (NetURL.Parse href) as [ref|]; [|exact Hhref].
  now apply resolved_nonempty.
Qed.

(** C9, as the specification states it, fails: with the empty base URL the
    anchor <a href="#">x</a> gives a link whose [Href] is empty. *)
Lemma link_with_empty_href :
  ~ Forall (fun l => Text l <> "" /\ Href l <> "")
      (snd (fst (extractContent "" EmptyHref.body))).
Proof.
  change (snd (fst (extractContent "" EmptyHref.body)))
    with [mkLink "x" "" 0].
  intros H. inversion H as [|? ? [_ Hh] _]; subst. now apply Hh.
Qed.

(** C9, amended: every link [extractContent] returns has a display text that
    is trimmed and not empty, and an [Href] that is the resolution against
    the base URL of an [href] value that is not empty; the [Href] itself is
    not empty whenever the base URL does not parse or has a scheme, a host
    or a path. *)
Theorem links_well_formed (currentURL : string) (node : Node) (l : LinkInfo) :
  In l (snd (fst (extractContent currentURL node))) ->
  Text l <> "" /\ TrimSpace (Text l) = Text l
  /\ (exists href, href <> "" /\ Href l = resolveURL currentURL href)
  /\ (anchoredBase currentURL = true -> Href l <> "").
Proof.
  intros Hin.
  destruct (extractFunc_ok currentURL node 0 0) as (_ & Hbuilt & _).
  rewrite Forall_forall in Hbuilt.
  destruct (Hbuilt l Hin) as (Htext & Htrim & href & Hhref & Hres).
  split; [exact Htext|]. split; [exact Htrim|]. split.
  - now exists href.
  - intros Hbase. rewrite Hres. now apply resolveURL_nonempty.
Qed.

Lemma links_well_formed_witness :
  Text (mkLink "link" "https://e.com/x" 1) <> ""
  /\ TrimSpace (Text (mkLink "link" "https://e.com/x" 1))
     = Text (mkLink "link" "https://e.com/x" 1)
  /\ (exists href,
        href <> ""
        /\ Href (mkLink "link" "https://e.com/x" 1)
           = resolveURL Scenario.base href)
  /\ (anchoredBase Scenario.base = true
      -> Href (mkLink "link" "https://e.com/x" 1) <> "").
Proof.
  apply (links_well_formed Scenario.base Scenario.body).
  left. reflexivity.
Defined.

(** ** The base URL and the shape of a result *)

Section TwoBases.
Variables U1 U2 : URLPackage.
Variables base1 base2 : string.

Local Abbreviation extract1 := (extractFunc (U := U1) base1).
Local Abbreviation extract2 := (extractFunc (U := U2) base2).

Lemma linkTextLoop_shape cs :
  Forall (sameShape U1 U2 base1 base2) cs ->
  forall cl acc lc,
    linkTextLoop extract1 cs cl acc lc = linkTextLoop extract2 cs cl acc lc.
Proof.
  induction 1 as [|c cs Hc _ IH]; intros cl acc lc; cbn [linkTextLoop];
    [reflexivity|].
  specialize (Hc cl lc). unfold shape in Hc.
  destruct (extract1 c cl lc) as [[[t1 l1] i1] k1].
  destruct (extract2 c cl lc) as [[[t2 l2] i2] k2].
  cbn [fst snd] in Hc. inversion Hc; subst. apply IH.
Qed.

Lemma childLoop_shape cs :
  Forall (sameShape U1 U2 base1 base2) cs ->
  forall text links1 links2 images1 images2 lc,
    map (fun l => (Text l, Line l)) links1
    = map (fun l => (Text l, Line l)) links2 ->
    map Alt images1 = map Alt images2 ->
    shape (childLoop extract1 cs text links1 images1 lc)
    = shape (childLoop extract2 cs text links2 images2 lc).
Proof.
  induction 1 as [|c cs Hc _ IH];
    intros text links1 links2 images1 images2 lc Hl Hi; cbn [childLoop].
  - unfold shape. cbn [fst snd]. now rewrite Hl, Hi.
  - specialize (Hc lc lc). unfold shape in Hc.
    destruct (extract1 c lc lc) as [[[t1 l1] i1] k1].
    destruct (extract2 c lc lc) as [[[t2 l2] i2] k2].
    cbn [fst snd] in Hc. inversion Hc; subst.
    apply IH; rewrite !map_app; congruence.
Qed.

Lemma extractFunc_shape : forall n, sameShape U1 U2 base1 base2 n.
Proof.
  induction n as [t d attrs cs IH] using Node_tree_ind. intros cl lc.
  cbn [extractFunc].
  destruct (isElement t d "script" || isElement t d "style"); [reflexivity|].
  rewrite (linkTextLoop_shape cs IH).
  destruct (isElement t d "a").
  - destruct (linkTextLoop extract2 cs cl "" lc) as [linkText lc1].
    destruct (nonEmpty (TrimSpace linkText)
              && nonEmpty (lastAttr "href" attrs "")); [reflexivity|].
    destruct (isElement t d "img" && nonEmpty (lastAttr "src" attrs ""));
      [reflexivity|].
    destruct (NodeType_eqb t TextNode).
    + destruct (nonEmpty (TrimSpace d)); reflexivity.
    + now apply childLoop_shape.
  - destruct (isElement t d "img" && nonEmpty (lastAttr "src" attrs ""));
      [reflexivity|].
    destruct (NodeType_eqb t TextNode).
    + destruct (nonEmpty (TrimSpace d)); reflexivity.
    + now apply childLoop_shape.
Qed.
End TwoBases.

(** The base URL, and the URL package, decide the [Href] of the links and
    the [Src] of the images and nothing else: the text, the display text
    and the line of every link, the alt text of every image and the final
    counter are the same for any two of them. *)
Theorem base_url_only_in_urls (U1 U2 : URLPackage) (base1 base2 : string)
  (n : Node) (currentLine lineCount : Z) :
  shape (extractFunc (U := U1) base1 n currentLine lineCount)
  = shape (extractFunc (U := U2) base2 n currentLine lineCount).
Proof. apply extractFunc_shape. Qed.

(** ** Inert nodes *)

Section PruneFacts.
Context {U : URLPackage}.
Variable currentURL : string.

Local Abbreviation extract := (extractFunc currentURL).

Lemma inert_nothing n cl lc :
  inert n = true -> extract n cl lc = (("", [], []), lc).
Proof.
  destruct n as [t d attrs cs]. cbn [inert extractFunc].
  destruct (isElement t d "script" || isElement t d "style"); [reflexivity|].
  cbn [orb]. intros H. apply orb_true_iff in H.
  destruct H as [H|H]; apply andb_true_iff in H; destruct H as [H1 H2].
  - destruct t; try discriminate. cbv [isElement NodeType_eqb]. cbn [andb].
    apply negb_true_iff in H2. now rewrite H2.
  - apply andb_true_iff in H1. destruct H1 as [Ht Hi].
    apply negb_true_iff in Ht, Hi. rewrite Ht, Hi.
    destruct cs; [|discriminate]. cbn [linkTextLoop childLoop].
    destruct (isElement t d "a"); reflexivity.
Qed.

Lemma linkTextLoop_prune cs :
  Forall (pruneSafe currentURL) cs ->
  forall cl acc lc,
    linkTextLoop extract (pruneChildren prune cs) cl acc lc
    = linkTextLoop extract cs cl acc lc.
Proof.
  induction 1 as [|c cs Hc _ IH]; intros cl acc lc; [reflexivity|].
  cbn [pruneChildren linkTextLoop].
  destruct (inert c) eqn:Ei.
  - rewrite (inert_nothing c cl lc Ei), append_nil_r. apply IH.
  - cbn [linkTextLoop]. rewrite Hc.
    destruct (extract c cl lc) as [[[t ls] ims] lc']. apply IH.
Qed.

Lemma childLoop_prune cs :
  Forall (pruneSafe currentURL) cs ->
  forall text links images lc,
    childLoop extract (pruneChildren prune cs) text links images lc
    = childLoop extract cs text links images lc.
Proof.
  induction 1 as [|c cs Hc _ IH]; intros text links images lc; [reflexivity|].
  cbn [pruneChildren childLoop].
  destruct (inert c) eqn:Ei.
  - rewrite (inert_nothing c lc lc Ei), append_nil_r, !app_nil_r. apply IH.
  - cbn [childLoop]. rewrite Hc.
    destruct (extract c lc lc) as [[[t ls] ims] lc']. apply IH.
Qed.

Lemma prune_safe : forall n, pruneSafe currentURL n.
Proof.
  induction n as [t d attrs cs IH] using Node_tree_ind. intros cl lc.
  cbn [prune extractFunc].
  destruct (isElement t d "script" || isElement t d "style"); [reflexivity|].
  rewrite (linkTextLoop_prune cs IH).
  assert (Hrest : forall k,
    (if isElement t d "img" && nonEmpty (lastAttr "src" attrs "")
     then ((lastAttr "alt" attrs "" ++ " ", [],
            [mkImage (resolveURL currentURL (lastAttr "src" attrs ""))
                     (lastAttr "alt" attrs "")]), k)
     else if NodeType_eqb t TextNode
          then (if nonEmpty (TrimSpace d)
                then ((TrimSpace d ++ newline, [], []), k + 1)
                else (("", [], []), k))
          else childLoop extract (pruneChildren prune cs) "" [] [] k)
    = (if isElement t d "img" && nonEmpty (lastAttr "src" attrs "")
       then ((lastAttr "alt" attrs "" ++ " ", [],
              [mkImage (resolveURL currentURL (lastAttr "src" attrs ""))
                       (lastAttr "alt" attrs "")]), k)
       else if NodeType_eqb t TextNode
            then (if nonEmpty (TrimSpace d)
                  then ((TrimSpace d ++ newline, [], []), k + 1)
                  else (("", [], []), k))
            else childLoop extract cs "" [] [] k)).
  { intros k. now rewrite (childLoop_prune cs IH). }
  destruct (isElement t d "a").
  - destruct (linkTextLoop extract cs cl "" lc) as [linkText lc1].
    destruct (nonEmpty (TrimSpace linkText)
              && nonEmpty (lastAttr "href" attrs "")); [reflexivity|].
    apply Hrest.
  - apply Hrest.
Qed.
End PruneFacts.

(** Script and style elements, blank text nodes and childless nodes other
    than text nodes and images with a source (comments, empty elements) can
    be taken out of a document, at any depth, without any change to what
    the extraction returns or to the counter. *)
Theorem inert_nodes_can_go {U : URLPackage} (currentURL : string) (n : Node)
  (currentLine lineCount : Z) :
  extractFunc currentURL (prune n) currentLine lineCount
  = extractFunc currentURL n currentLine lineCount.
Proof. apply prune_safe. Qed.

(** ** Counting links and images *)

Section CountFacts.
Context {U : URLPackage}.
Variable currentURL : string.

Local Abbreviation extract := (extractFunc currentURL).

Lemma childLoop_counted cs :
  Forall (countedCall currentURL) cs ->
  forall text links images lc,
    Forall (builtImage currentURL) images ->
    let r := childLoop extract cs text links images lc in
    (List.length (snd (fst (fst r)))
     <= List.length links + list_sum (map (countTag "a") cs))%nat
    /\ (List.length (snd (fst r))
        <= List.length images + list_sum (map (countTag "img") cs))%nat
    /\ Forall (builtImage currentURL) (snd (fst r)).
Proof.
  induction 1 as [|c cs Hc _ IH]; intros text links images lc Hb;
    cbn [childLoop map]; unfold list_sum in *; cbn [fold_right].
  - cbn [fst snd]. repeat split; [lia|lia|exact Hb].
  - destruct (Hc lc lc) as (Hl & Hi & Hbi).
    destruct (extract c lc lc) as [[[t ls] ims] lc']. cbn [fst snd] in *.
    destruct (IH (text ++ t) (links ++ ls)%list (images ++ ims)%list lc')
      as (H1 & H2 & H3).
    { apply Forall_app. now split. }
    cbn zeta in H1, H2, H3. rewrite !length_app in H1, H2.
    cbn zeta. repeat split; [lia|lia|exact H3].
Qed.

Lemma extractFunc_counted : forall n, countedCall currentURL n.
Proof.
  induction n as [t d attrs cs IH] using Node_tree_ind. intros cl lc.
  assert (Hloop : forall k,
    let r := childLoop extract cs "" [] [] k in
    (List.length (snd (fst (fst r)))
     <= countTag "a" (mkNode t d attrs cs))%nat
    /\ (List.length (snd (fst r))
        <= countTag "img" (mkNode t d attrs cs))%nat
    /\ Forall (builtImage currentURL) (snd (fst r))).
  { intros k.
    destruct (childLoop_counted cs IH "" [] [] k (Forall_nil _))
      as (H1 & H2 & H3).
    cbn zeta in *. cbn [countTag List.length] in *.
    unfold list_sum in *. repeat split; [lia|lia|exact H3]. }
  cbn zeta in Hloop.
  assert (Hleaf : forall (text : string) (k : Z),
    let r : Extracted * Z := ((text, [], []), k) in
    (List.length (snd (fst (fst r))) <= countTag "a" (mkNode t d attrs cs))%nat
    /\ (List.length (snd (fst r)) <= countTag "img" (mkNode t d attrs cs))%nat
    /\ Forall (builtImage currentURL) (snd (fst r))).
  { intros text k. cbn [fst snd List.length].
    repeat split; [lia|lia|constructor]. }
  cbn zeta in Hleaf.
  cbn [extractFunc].
  destruct (isElement t d "script" || isElement t d "style");
    [apply Hleaf|].
  destruct (isElement t d "a") eqn:Ea.
  - destruct (linkTextLoop extract cs cl "" lc) as [linkText lc1].
    destruct (nonEmpty (TrimSpace linkText)
              && nonEmpty (lastAttr "href" attrs "")).
    + cbn [fst snd List.length countTag]. rewrite Ea.
      repeat split; [lia|lia|constructor].
    + destruct (isElement t d "img" && nonEmpty (lastAttr "src" attrs ""))
        eqn:Ei.
      * apply andb_true_iff in Ei. destruct Ei as [Ei Es].
        cbn [fst snd List.length countTag]. rewrite Ei.
        repeat split; [lia|lia|].
        constructor; [|constructor].
        exists (lastAttr "src" attrs ""). split; [|reflexivity].
        now apply nonEmpty_true.
      * destruct (NodeType_eqb t TextNode); [|apply Hloop].
        destruct (nonEmpty (TrimSpace d)); apply Hleaf.
  - destruct (isElement t d "img" && nonEmpty (lastAttr "src" attrs ""))
      eqn:Ei.
    + apply andb_true_iff in Ei. destruct Ei as [Ei Es].
      cbn [fst snd List.length countTag]. rewrite Ei.
      repeat split; [lia|lia|].
      constructor; [|constructor].
      exists (lastAttr "src" attrs ""). split; [|reflexivity].
      now apply nonEmpty_true.
    + destruct (NodeType_eqb t TextNode); [|apply Hloop].
      destruct (nonEmpty (TrimSpace d)); apply Hleaf.
Qed.
End CountFacts.

(** An extraction returns at most one link for every anchor element of the
    document and at most one image for every image element: the second
    walk through an anchor without link text or [href] duplicates
    nothing. *)
Theorem no_more_links_than_anchors {U : URLPackage} (currentURL : string)
  (node : Node) :
  (List.length (snd (fst (extractContent currentURL node)))
   <= countTag "a" node)%nat
  /\ (List.length (snd (extractContent currentURL node))
      <= countTag "img" node)%nat.
Proof.
  destruct (extractFunc_counted currentURL node 0 0) as (H1 & H2 & _).
  unfold extractContent. split; assumption.
Qed.

(** Every image an extraction returns has as [Src] the resolution against
    the base URL of a [src] value that is not empty. *)
Theorem images_well_formed {U : URLPackage} (currentURL : string)
  (node : Node) (im : ImageInfo) :
  In im (snd (extractContent currentURL node)) ->
  exists src, src <> "" /\ Src im = resolveURL currentURL src.
Proof.
  intros Hin.
  destruct (extractFunc_counted currentURL node 0 0) as (_ & _ & H).
  rewrite Forall_forall in H. exact (H im Hin).
Qed.

Lemma images_well_formed_witness :
  exists src,
    src <> ""
    /\ Src (mkImage "https://e.com/i.png" "pic")
       = resolveURL Scenario.base src.
Proof.
  apply (images_well_formed Scenario.base Scenario.body).
  left. reflexivity.
Defined.

(** The line of every link an extraction returns lies between 0 and the
    number of text-node visits the extraction has counted. *)
Theorem link_lines_in_range {U : URLPackage} (currentURL : string)
  (node : Node) (l : LinkInfo) :
  In l (snd (fst (extractContent currentURL node))) ->
  0 <= Line l <= snd (extractFunc currentURL node 0 0).
Proof.
  intros Hin.
  destruct (extractFunc_ok currentURL node 0 0) as (_ & _ & Hs).
  destruct (Hs (Z.le_refl 0)) as [_ Hw].
  unfold linesWithin in Hw. rewrite Forall_forall in Hw.
  exact (Hw l Hin).
Qed.

Lemma link_lines_in_range_witness :
  0 <= Line (mkLink "link" "https://e.com/x" 1)
  <= snd (extractFunc Scenario.base Scenario.body 0 0).
Proof.
  apply (link_lines_in_range Scenario.base Scenario.body).
  left. reflexivity.
Defined.

(** ** [renderHTML] and the body elements *)

Lemma last_default {A : Type} (l : list A) (x d d' : A) :
  last (x :: l) d = last (x :: l) d'.
Proof.
  revert x. induction l as [|y l IH]; intros x; [reflexivity|].
  change (last (y :: l) d = last (y :: l) d'). apply IH.
Qed.

Lemma last_append {A : Type} (a b : list A) (d : A) :
  last (a ++ b) d = last b (last a d).
Proof.
  induction a as [|x a IH]; [reflexivity|].
  destruct a as [|y a].
  - destruct b as [|z b]; [reflexivity|].
    change (last (z :: b) d = last (z :: b) x). apply last_default.
  - change (last ((y :: a) ++ b) d = last b (last (y :: a) d)). exact IH.
Qed.

Section RenderFacts.
Context {U : URLPackage}.
Variable currentURL : string.

Lemma findBodyLoop_last cs :
  Forall (fun c => forall body,
            findBody currentURL c body
            = last (map (extractContent currentURL) (bodies c)) body) cs ->
  forall body,
    findBodyLoop (findBody currentURL) cs body
    = last (map (extractContent currentURL) (flat_map bodies cs)) body.
Proof.
  induction 1 as [|c cs Hc _ IH]; intros body; cbn [findBodyLoop flat_map];
    [reflexivity|].
  rewrite IH, Hc, map_app, last_append. reflexivity.
Qed.

Lemma findBody_last n :
  forall body,
    findBody currentURL n body
    = last (map (extractContent currentURL) (bodies n)) body.
Proof.
  induction n as [t d attrs cs IH] using Node_tree_ind. intros body.
  cbn [findBody bodies].
  destruct (isElement t d "body"); [reflexivity|].
  now apply findBodyLoop_last.
Qed.
End RenderFacts.

(** [renderHTML] returns the extraction of the last body element that a walk
    in document order meets without entering a body, and the empty result
    (no text, no links, no images) when the document has no body element. *)
Theorem renderHTML_last_body {U : URLPackage} (currentURL : string)
  (doc : Node) :
  renderHTML currentURL doc
  = last (map (extractContent currentURL) (bodies doc)) ("", [], []).
Proof. apply findBody_last. Qed.

(** ** The click handler *)

Lemma firstOnLine_none (links : list LinkInfo) (y : Z) :
  firstOnLine links y = None <-> Forall (fun l => Line l <> y) links.
Proof.
  induction links as [|l links IH]; cbn [firstOnLine].
  - split; [constructor|reflexivity].
  - destruct (Z.eqb_spec (Line l) y) as [E|E].
    + split; [discriminate|]. intros H. inversion H; subst. congruence.
    + rewrite IH. split.
      * intros H. now constructor.
      * intros H. now inversion H.
Qed.

Lemma firstOnLine_some (links : list LinkInfo) (y : Z) (l : LinkInfo) :
  firstOnLine links y = Some l <->
  exists pre post,
    links = (pre ++ l :: post)%list /\ Line l = y
    /\ Forall (fun l' => Line l' <> y) pre.
Proof.
  induction links as [|x links IH]; cbn [firstOnLine].
  - split; [discriminate|]. intros (pre & post & H & _).
    destruct pre; discriminate.
  - destruct (Z.eqb_spec (Line x) y) as [E|E].
    + split.
      * intros H. inversion H; subst x. exists [], links.
        split; [reflexivity|]. split; [exact E|constructor].
      * intros (pre & post & H & Hy & Hpre).
        destruct pre as [|p pre]; cbn in H; inversion H; subst.
        -- reflexivity.
        -- inversion Hpre; subst. congruence.
    + rewrite IH. split.
      * intros (pre & post & -> & Hy & Hpre). exists (x :: pre), post.
        split; [reflexivity|]. split; [exact Hy|now constructor].
      * intros (pre & post & H & Hy & Hpre).
        destruct pre as [|p pre]; cbn in H; inversion H; subst.
        -- congruence.
        -- exists pre, post. split; [reflexivity|]. split; [reflexivity|].
           now inversion Hpre.
Qed.

(** A left click on a row navigates to the [Href] of the first link, in the
    order of the list, whose line is the row plus the scroll offset, and
    nowhere when no link has that line; a later link on the same line is
    never chosen. *)
Theorem click_follows_first_link (links : list LinkInfo)
  (eventY scrollOffset : Z) :
  (clickTarget links eventY scrollOffset = None <->
   Forall (fun l => Line l <> int_add eventY scrollOffset) links)
  /\ (forall href,
        clickTarget links eventY scrollOffset = Some href <->
        exists pre l post,
          links = (pre ++ l :: post)%list /\ Href l = href
          /\ Line l = int_add eventY scrollOffset
          /\ Forall (fun l' => Line l' <> int_add eventY scrollOffset) pre).
Proof.
  unfold clickTarget. set (y := int_add eventY scrollOffset). split.
  - rewrite <- firstOnLine_none.
    destruct (firstOnLine links y); cbn; split; congruence.
  - intros href. split.
    + destruct (firstOnLine links y) as [l|] eqn:E; cbn; [|discriminate].
      intros H. inversion H; subst href.
      apply firstOnLine_some in E. destruct E as (pre & post & E & Hy & Hp).
      now exists pre, l, post.
    + intros (pre & l & post & E & Hh & Hy & Hp).
      assert (F : firstOnLine links y = Some l).
      { apply firstOnLine_some. now exists pre, post. }
      rewrite F. cbn. now rewrite Hh.
Qed.

(** ** What the rasterizer reads, and when it stops *)

Lemma wrap_range (z : Z) : - 2 ^ 63 <= wrap z <= maxInt.
Proof.
  unfold wrap, maxInt.
  pose proof (Z.mod_pos_bound (z + 2 ^ 63) (2 ^ 64) ltac:(lia)). lia.
Qed.

Lemma int_quo_mul_inside (i n len : Z) :
  0 <= i < n -> 0 < len -> (n - 1) * len <= maxInt ->
  0 <= int_quo (int_mul i len) n < len.
Proof.
  intros Hi Hlen Hmax. unfold int_quo, int_mul, maxInt in *.
  assert (Hprod : 0 <= i * len <= (n - 1) * len) by nia.
  rewrite (wrap_small (i * len)) by lia.
  rewrite Z.quot_div_nonneg by lia.
  assert (Hq : 0 <= i * len / n < len).
  { split; [apply Z.div_pos; lia|].
    apply Z.div_lt_upper_bound; [lia|]. nia. }
  assert (Hle : i * len / n <= i * len).
  { apply Z.div_le_upper_bound; [lia|]. nia. }
  rewrite wrap_small; [exact Hq|]. lia.
Qed.

Section SamplingFacts.
Variable charIndex : Z -> Z -> Z -> Z.
Variables img1 img2 : Image.

Hypothesis same_bounds : Bounds img1 = Bounds img2.
Hypothesis wide : 0 < Dx (Bounds img1).
Hypothesis high : 0 < Dy (Bounds img1).
Hypothesis columns_fit : (width - 1) * Dx (Bounds img1) <= maxInt.

Hypothesis same_inside :
  forall x y,
    0 <= x < Dx (Bounds img1) -> 0 <= y < Dy (Bounds img1) ->
    At img1 x y = At img2 x y.

Lemma columnLoop_inside (height y : Z) :
  0 <= y < height -> (height - 1) * Dy (Bounds img1) <= maxInt ->
  forall todo x ascii,
    0 <= x -> x + Z.of_nat todo <= width ->
    columnLoop charIndex img1 todo height y x ascii
    = columnLoop charIndex img2 todo height y x ascii.
Proof.
  intros Hy Hfit.
  induction todo as [|todo IH]; intros x ascii Hx Hend; [reflexivity|].
  cbn [columnLoop]. rewrite <- same_bounds.
  rewrite <- (same_inside _ _
                (int_quo_mul_inside x width _ ltac:(lia) wide columns_fit)
                (int_quo_mul_inside y height _ Hy high Hfit)).
  destruct (rampAt _); [|reflexivity].
  apply IH; lia.
Qed.

Lemma rowLoop_inside (height : Z) :
  (height - 1) * Dy (Bounds img1) <= maxInt ->
  forall todo y ascii,
    0 <= y -> y + Z.of_nat todo <= height ->
    rowLoop charIndex img1 todo height y ascii
    = rowLoop charIndex img2 todo height y ascii.
Proof.
  intros Hfit.
  induction todo as [|todo IH]; intros y ascii Hy Hend; [reflexivity|].
  cbn [rowLoop].
  rewrite (columnLoop_inside height y ltac:(lia) Hfit (Z.to_nat width) 0 ascii)
    by (rewrite ?Z2Nat.id; unfold width; lia).
  destruct (columnLoop _ _ _ _ _ _ _); [|reflexivity].
  apply IH; lia.
Qed.
End SamplingFacts.

(** [imageToASCII] reads the decoded image only at the points (x, y) with
    0 <= x < Dx and 0 <= y < Dy: two images with the same bounds that agree
    there give the same text, or fail alike, as long as the products of the
    sampling fit an [int]. *)
Theorem raster_reads_inside (charIndex : Z -> Z -> Z -> Z)
  (img1 img2 : Image) :
  Bounds img1 = Bounds img2 ->
  0 < Dx (Bounds img1) -> 0 < Dy (Bounds img1) ->
  79 * Dx (Bounds img1) <= maxInt ->
  80 * Dy (Bounds img1) <= maxInt ->
  (80 * Dy (Bounds img1) / Dx (Bounds img1)) * Dy (Bounds img1) <= maxInt ->
  (forall x y,
     0 <= x < Dx (Bounds img1) -> 0 <= y < Dy (Bounds img1) ->
     At img1 x y = At img2 x y) ->
  imageToASCII charIndex img1 = imageToASCII charIndex img2.
Proof.
  intros Hb Hx Hy Hcols Hrows Hfit Hsame.
  unfold imageToASCII.
  assert (H2 : heightOf img2 = heightOf img1)
    by (unfold heightOf; now rewrite Hb).
  rewrite H2, (heightOf_value img1 Hx Hy Hrows).
  change width with 80.
  set (height := 80 * Dy (Bounds img1) / Dx (Bounds img1)) in *.
  assert (Hh : 0 <= height) by (apply Z.div_pos; lia).
  apply (rowLoop_inside charIndex img1 img2 Hb Hx Hy Hcols Hsame height).
  - lia.
  - lia.
  - rewrite Z2Nat.id; lia.
Qed.

Lemma raster_reads_inside_witness :
  imageToASCII (charIndexOf exact false false false) Sample.strip
  = imageToASCII (charIndexOf exact false false false) Pictures.framed.
Proof.
  apply (raster_reads_inside _ Sample.strip Pictures.framed);
    try (vm_compute; congruence).
  intros x y Hx Hy. change (Dx (Bounds Sample.strip)) with 3 in Hx.
  change (Dy (Bounds Sample.strip)) with 1 in Hy.
  cbn [At Pictures.framed Sample.strip].
  destruct (Z.leb_spec 0 x); [|lia]. destruct (Z.ltb_spec x 3); [|lia].
  destruct (Z.leb_spec 0 y); [|lia]. destruct (Z.ltb_spec y 1); [|lia].
  reflexivity.
Defined.

(** When every ramp index is one of the ramp, [imageToASCII] fails in one
    case only: an image of width zero, on the division of line 144. *)
Theorem raster_fails_on_zero_width_only (charIndex : Z -> Z -> Z -> Z)
  (img : Image) :
  (forall x y,
     0 <= charIndex (R (At img x y)) (G (At img x y)) (B (At img x y)) <= 9) ->
  (imageToASCII charIndex img = None <-> Dx (Bounds img) = 0).
Proof.
  intros Hidx. unfold imageToASCII, heightOf.
  destruct (Z.eqb_spec (Dx (Bounds img)) 0) as [E|E].
  - split; [intros _; exact E|reflexivity].
  - set (height := int_quo _ _).
    destruct (rowLoop_grid charIndex img Hidx (Z.to_nat height) height 0 "")
      as (rows & Hrows & _).
    rewrite Hrows. split; [discriminate|contradiction].
Qed.

Lemma raster_fails_on_zero_width_only_witness :
  imageToASCII (charIndexOf exact false false false)
    (mkImageOf (mkRect 0 0 0 1) (fun _ _ => Sample.white)) = None
  <-> Dx (Bounds (mkImageOf (mkRect 0 0 0 1) (fun _ _ => Sample.white))) = 0.
Proof.
  apply (raster_fails_on_zero_width_only (charIndexOf exact false false false)).
  intros x y. vm_compute. split; discriminate.
Defined.

(** An image more than 80 times as wide as it is high gives the empty
    text: its height in rows is 0. *)
Theorem raster_of_flat_image_is_empty (charIndex : Z -> Z -> Z -> Z)
  (img : Image) :
  0 <= Dy (Bounds img) -> 80 * Dy (Bounds img) < Dx (Bounds img) ->
  imageToASCII charIndex img = Some "".
Proof.
  intros Hy Hwide.
  pose proof (wrap_range (MaxX (Bounds img) - MinX (Bounds img))) as Hr.
  fold (int_sub (MaxX (Bounds img)) (MinX (Bounds img))) in Hr.
  fold (Dx (Bounds img)) in Hr.
  unfold imageToASCII, heightOf.
  destruct (Z.eqb_spec (Dx (Bounds img)) 0) as [E|_]; [lia|].
  unfold int_mul, int_quo, width, maxInt in *.
  rewrite (wrap_small (80 * Dy (Bounds img))) by lia.
  rewrite Z.quot_small by lia. reflexivity.
Qed.

Lemma raster_of_flat_image_is_empty_witness :
  imageToASCII (charIndexOf exact false false false) Pictures.banner
  = Some "".
Proof.
  apply (raster_of_flat_image_is_empty _ Pictures.banner).
  - discriminate.
  - reflexivity.
Defined.

(** ** Brighter pixels, denser characters *)

Section ChannelFacts.
Variable rnd : Q -> Q.
Variables fuse1 fuse2 fuse3 : bool.

Hypothesis rnd_monotone : forall x y, (x <= y)%Q -> (rnd x <= rnd y)%Q.
Hypothesis rnd_exact : forall q, binary64 q -> (rnd q == q)%Q.

Lemma binary64_zero : binary64 0%Q.
Proof.
  exists 0%Z, 0%Z. split; [vm_compute; reflexivity|].
  split; [lia|vm_compute; reflexivity].
Qed.

Lemma weight_nonneg (c : Q) : (0 <= c)%Q -> (0 <= rnd c)%Q.
Proof.
  intros Hc. apply (rnd_above rnd rnd_monotone rnd_exact _ 0%Q);
    [apply binary64_zero|exact Hc].
Qed.

Lemma product_monotone fused (c : Q) (x y : Z) :
  (0 <= c)%Q -> x <= y ->
  (product rnd fused (rnd c) (inject_Z x)
   <= product rnd fused (rnd c) (inject_Z y))%Q.
Proof.
  intros Hc Hxy.
  assert (H : (rnd c * inject_Z x <= rnd c * inject_Z y)%Q).
  { rewrite (Qmult_comm (rnd c) (inject_Z x)), (Qmult_comm (rnd c) (inject_Z y)).
    apply Qmult_le_compat_r; [now rewrite <- Zle_Qle|now apply weight_nonneg]. }
  unfold product. destruct fused; [exact H|now apply rnd_monotone].
Qed.

Lemma brightness_monotone (r1 g1 b1 r2 g2 b2 : Z) :
  r1 <= r2 -> g1 <= g2 -> b1 <= b2 ->
  (brightness rnd fuse1 fuse2 fuse3 r1 g1 b1
   <= brightness rnd fuse1 fuse2 fuse3 r2 g2 b2)%Q.
Proof.
  intros Hr Hg Hb. unfold brightness.
  pose proof (product_monotone fuse1 (299 # 1000) r1 r2 ltac:(discriminate) Hr).
  pose proof (product_monotone fuse2 (587 # 1000) g1 g2 ltac:(discriminate) Hg).
  pose proof (product_monotone fuse3 (114 # 1000) b1 b2 ltac:(discriminate) Hb).
  apply rnd_monotone. unfold Qdiv.
  apply Qmult_le_compat_r; [|discriminate].
  apply rnd_monotone. apply Qplus_le_compat; [|assumption].
  apply rnd_monotone. now apply Qplus_le_compat.
Qed.

Lemma product_of_zero fused (c : Q) :
  (0 <= c)%Q -> (product rnd fused (rnd c) (inject_Z 0) == 0)%Q.
Proof.
  intros Hc.
  assert (H : (rnd c * inject_Z 0 == 0)%Q) by (change (inject_Z 0) with 0%Q; ring).
  unfold product. destruct fused; [exact H|].
  apply Qle_antisym.
  - apply (rnd_below rnd rnd_monotone rnd_exact); [apply binary64_zero|].
    rewrite H. apply Qle_refl.
  - apply (rnd_above rnd rnd_monotone rnd_exact); [apply binary64_zero|].
    rewrite H. apply Qle_refl.
Qed.

Lemma rnd_of_zero (x : Q) : (x == 0)%Q -> (rnd x == 0)%Q.
Proof.
  intros H. apply Qle_antisym.
  - apply (rnd_below rnd rnd_monotone rnd_exact); [apply binary64_zero|].
    rewrite H. apply Qle_refl.
  - apply (rnd_above rnd rnd_monotone rnd_exact); [apply binary64_zero|].
    rewrite H. apply Qle_refl.
Qed.

Lemma brightness_of_black :
  (brightness rnd fuse1 fuse2 fuse3 0 0 0 == 0)%Q.
Proof.
  unfold brightness.
  pose proof (product_of_zero fuse1 (299 # 1000) ltac:(discriminate)) as H1.
  pose proof (product_of_zero fuse2 (587 # 1000) ltac:(discriminate)) as H2.
  pose proof (product_of_zero fuse3 (114 # 1000) ltac:(discriminate)) as H3.
  apply rnd_of_zero.
  assert (Hs1 : (rnd (product rnd fuse1 (rnd (299 # 1000)) (inject_Z 0)
                      + product rnd fuse2 (rnd (587 # 1000)) (inject_Z 0))
                 == 0)%Q).
  { apply rnd_of_zero. rewrite H1, H2. reflexivity. }
  assert (Hs2 : (rnd (rnd (product rnd fuse1 (rnd (299 # 1000)) (inject_Z 0)
                           + product rnd fuse2 (rnd (587 # 1000)) (inject_Z 0))
                      + product rnd fuse3 (rnd (114 # 1000)) (inject_Z 0))
                 == 0)%Q).
  { apply rnd_of_zero. rewrite Hs1, H3. reflexivity. }
  rewrite Hs2. reflexivity.
Qed.

Lemma rampIndex_of_zero (luminance : Q) :
  (luminance == 0)%Q -> rampIndex rnd luminance = 0.
Proof.
  intros H. unfold rampIndex.
  assert (Hv : (rnd (luminance
                     * inject_Z (Z.of_nat (List.length asciiChars) - 1))
                == 0)%Q).
  { apply rnd_of_zero. rewrite H. reflexivity. }
  set (v := rnd _) in *.
  apply Z.le_antisymm.
  - apply (truncate_monotone v 0%Q). rewrite Hv. apply Qle_refl.
  - apply (truncate_monotone 0%Q v). rewrite Hv. apply Qle_refl.
Qed.
End ChannelFacts.

(** A pixel that is at least as large in every channel never gets a sparser
    ramp character, and a black pixel gets the first one, the blank. *)
Theorem brighter_is_denser (rnd : Q -> Q) (fuse1 fuse2 fuse3 : bool) :
  (forall x y, (x <= y)%Q -> (rnd x <= rnd y)%Q) ->
  (forall q, binary64 q -> (rnd q == q)%Q) ->
  (forall r1 g1 b1 r2 g2 b2 : Z,
     r1 <= r2 -> g1 <= g2 -> b1 <= b2 ->
     charIndexOf rnd fuse1 fuse2 fuse3 r1 g1 b1
     <= charIndexOf rnd fuse1 fuse2 fuse3 r2 g2 b2)
  /\ rampAt (charIndexOf rnd fuse1 fuse2 fuse3 0 0 0) = Some " ".
Proof.
  intros Hmono Hexact. split.
  - intros r1 g1 b1 r2 g2 b2 Hr Hg Hb. unfold charIndexOf.
    apply rampIndex_monotone; [exact Hmono|].
    now apply brightness_monotone.
  - unfold charIndexOf.
    rewrite (rampIndex_of_zero rnd Hmono Hexact);
      [reflexivity|now apply brightness_of_black].
Qed.

Lemma brighter_is_denser_witness :
  (forall r1 g1 b1 r2 g2 b2 : Z,
     r1 <= r2 -> g1 <= g2 -> b1 <= b2 ->
     charIndexOf exact false true false r1 g1 b1
     <= charIndexOf exact false true false r2 g2 b2)
  /\ rampAt (charIndexOf exact false true false 0 0 0) = Some " ".
Proof.
  apply (brighter_is_denser exact false true false).
  - intros x y H. exact H.
  - intros q _. reflexivity.
Defined.

(** ** [fetchURL] *)

Lemma String_starts_with_scheme (u : NetURL.URL) :
  NetURL.Scheme u <> "" ->
  exists rest, NetURL.String_ u = NetURL.Scheme u ++ ":" ++ rest.
Proof.
  intros Hs. apply nonEmpty_true in Hs.
  destruct u as [scheme opaque host path omit force query frag].
  cbn [NetURL.Scheme] in *. unfold NetURL.String_.
  cbn [NetURL.Scheme NetURL.Opaque NetURL.Host NetURL.Path NetURL.OmitHost
       NetURL.ForceQuery NetURL.RawQuery NetURL.Fragment].
  rewrite Hs. cbn [orb].
  repeat match goal with
         | |- context [if ?c then _ else _] => destruct c
         end;
    repeat rewrite append_assoc; eexists; reflexivity.
Qed.

(** The request of [fetchURL] always names a scheme: the one of the input,
    or https when the input has none. *)
Theorem fetch_target_has_scheme (inputURL target : string) :
  fetchTarget inputURL = Some target ->
  exists parsedURL scheme rest,
    NetURL.Parse inputURL = Some parsedURL
    /\ scheme <> "" /\ target = scheme ++ ":" ++ rest
    /\ scheme = (if (NetURL.Scheme parsedURL =? "")%string
                 then "https" else NetURL.Scheme parsedURL).
Proof.
  unfold fetchTarget.
  destruct (NetURL.Parse inputURL) as [u|]; [|discriminate].
  intros H. inversion H as [Ht]. clear H.
  destruct (String.eqb_spec (NetURL.Scheme u) "") as [E|E].
  - destruct (String_starts_with_scheme (withScheme u "https"))
      as (rest & Hrest); [discriminate|].
    exists u, "https", rest.
    split; [reflexivity|]. split; [discriminate|].
    split; [exact Hrest|now rewrite E].
  - destruct (String_starts_with_scheme u E) as (rest & Hrest).
    exists u, (NetURL.Scheme u), rest.
    split; [reflexivity|]. split; [exact E|].
    split; [exact Hrest|].
    apply String.eqb_neq in E. now rewrite E.
Qed.

Lemma fetch_target_has_scheme_witness :
  exists parsedURL scheme rest,
    NetURL.Parse "e.com/page" = Some parsedURL
    /\ scheme <> "" /\ "https://e.com/page" = scheme ++ ":" ++ rest
    /\ scheme = (if (NetURL.Scheme parsedURL =? "")%string
                 then "https" else NetURL.Scheme parsedURL).
Proof.
  apply (fetch_target_has_scheme "e.com/page" "https://e.com/page").
  reflexivity.
Defined.

(** [fetchURL] returns a body in one case only: the input parses, the one
    request it makes is answered, the status code is exactly 200 and the
    body is read; a 2xx answer other than 200 is an error. *)
Theorem fetch_succeeds_on_200_only (httpGet : string -> option Response)
  (inputURL : string) (requests : list string) (body : string) :
  fetchURL httpGet inputURL = (requests, inr body) <->
  exists target resp,
    fetchTarget inputURL = Some target /\ requests = [target]
    /\ httpGet target = Some resp
    /\ StatusCode resp = 200 /\ Body resp = Some body.
Proof.
  unfold fetchURL. split.
  - destruct (fetchTarget inputURL) as [target|]; [|discriminate].
    destruct (httpGet target) as [resp|] eqn:Eg; [|discriminate].
    destruct (Z.eqb_spec (StatusCode resp) StatusOK) as [Es|Es];
      cbn [negb]; [|discriminate].
    destruct (Body resp) as [b|] eqn:Eb; [|discriminate].
    intros H. inversion H; subst. exists target, resp.
    repeat split; assumption.
  - intros (target & resp & Ht & -> & Eg & Es & Eb).
    rewrite Ht, Eg. unfold StatusOK. rewrite Es, Eb. reflexivity.
Qed.

(** A request is made exactly when the input parses, and then it is the
    only one; every failure after it is reported with the request made. *)
Theorem fetch_makes_one_request (httpGet : string -> option Response)
  (inputURL : string) :
  (NetURL.Parse inputURL = None ->
   fetchURL httpGet inputURL = ([], inl ErrorParsingURL))
  /\ (forall target,
        fetchTarget inputURL = Some target ->
        fst (fetchURL httpGet inputURL) = [target])
  /\ (forall resp target,
        fetchTarget inputURL = Some target ->
        httpGet target = Some resp -> StatusCode resp <> 200 ->
        fetchURL httpGet inputURL = ([target], inl (BadStatus (Status resp)))).
Proof.
  unfold fetchURL. split; [|split].
  - intros H. unfold fetchTarget. now rewrite H.
  - intros target Ht. rewrite Ht.
    destruct (httpGet target) as [resp|]; [|reflexivity].
    destruct (negb (StatusCode resp =? StatusOK)); [reflexivity|].
    destruct (Body resp); reflexivity.
  - intros resp target Ht Eg Es. rewrite Ht, Eg.
    destruct (Z.eqb_spec (StatusCode resp) StatusOK) as [E|E];
      [contradiction|reflexivity].
Qed.

Lemma fetch_makes_one_request_witness :
  fetchURL Servers.partial ":x" = ([], inl ErrorParsingURL)
  /\ fst (fetchURL Servers.partial "e.com/page") = ["https://e.com/page"]
  /\ fetchURL Servers.partial "e.com/page"
     = (["https://e.com/page"], inl (BadStatus "206 Partial Content")).
Proof.
  destruct (fetch_makes_one_request Servers.partial ":x") as (H1 & _).
  destruct (fetch_makes_one_request Servers.partial "e.com/page")
    as (_ & H2 & H3).
  split; [apply H1; reflexivity|]. split.
  - apply H2. reflexivity.
  - apply (H3 (mkResponse 206 "206 Partial Content" (Some "<body>x</body>")));
      [reflexivity|reflexivity|discriminate].
Defined.

Lemma containsByte_cons (sep c : ascii) (s : string) :
  containsByte sep (String c s) = false ->
  Ascii.eqb c sep = false /\ containsByte sep s = false.
Proof.
  unfold containsByte. cbn [countByte].
  destruct (Ascii.eqb c sep); [discriminate|]. intros H. now split.
Qed.






(** ** File names *)

Example Ext_examples :
  map FilePath.Ext ["a/b.png"; "a.b/c"; "pic.tar.gz"; "http://e.com"; ""; "x."]
  = [".png"; ""; ".gz"; ".com"; ""; "."]
  /\ map FilePath.Clean ["a//b/./c/.."; "/../a"; "../../a/.."; ""; "a/.."]
     = ["a/b"; "/a"; "../.."; "."; "."]
  /\ generateUniqueFilename 1700000000000000000 42 ".png"
     = "downloads/img_1700000000000000000_42.png".
Proof. repeat split. Qed.

Lemma string_rev_cons (c : ascii) (s : string) :
  string_rev (String c s) = string_rev s ++ String c "".
Proof.
  change (String c s) with (String c "" ++ s).
  now rewrite string_rev_append.
Qed.

Lemma extFrom_shape (reversed : string) :
  forall tail,
    containsByte (ch "/") tail = false ->
    containsByte (ch ".") tail = false ->
    FilePath.extFrom reversed tail = ""
    \/ exists body pre,
         FilePath.extFrom reversed tail = "." ++ body
         /\ containsByte (ch "/") body = false
         /\ containsByte (ch ".") body = false
         /\ string_rev reversed ++ tail
            = pre ++ FilePath.extFrom reversed tail.
Proof.
  induction reversed as [|c r IH]; intros tail Hs Hd; [now left|].
  cbn [FilePath.extFrom].
  destruct (Ascii.eqb c (ch "/")) eqn:Ec; [now left|].
  destruct (Ascii.eqb_spec c (ch ".")) as [->|Ed].
  - right. exists tail, (string_rev r).
    split; [reflexivity|]. split; [exact Hs|]. split; [exact Hd|].
    rewrite string_rev_cons, append_assoc. reflexivity.
  - assert (Hd' : Ascii.eqb c (ch ".") = false) by now apply Ascii.eqb_neq.
    destruct (IH (String c tail)) as [E|(body & pre & E & H1 & H2 & H3)].
    + unfold containsByte in *. cbn [countByte]. now rewrite Ec.
    + unfold containsByte in *. cbn [countByte]. now rewrite Hd'.
    + now left.
    + right. exists body, pre. repeat split; try assumption.
      rewrite string_rev_cons, append_assoc. exact H3.
Qed.

Lemma image_extension_shape_aux (imageURL : string) :
  exists body,
    imageExt imageURL = "." ++ body
    /\ containsByte (ch "/") body = false
    /\ containsByte (ch ".") body = false
    /\ (imageExt imageURL = ".jpg"
        \/ exists pre, imageURL = pre ++ imageExt imageURL).
Proof.
  unfold imageExt, FilePath.Ext.
  destruct (extFrom_shape (string_rev imageURL) "" eq_refl eq_refl)
    as [E|(body & pre & E & H1 & H2 & H3)].
  - rewrite E. exists "jpg". repeat split. now left.
  - rewrite E in *. cbn [String.eqb append].
    exists body. repeat split; try assumption.
    right. exists pre.
    now rewrite string_rev_involutive, append_nil_r in H3.
Qed.

(** The extension of a downloaded file starts with a dot and has neither a
    slash nor a second dot; it is the end of the image URL, or [.jpg] when
    the last element of the URL has no dot. *)
Theorem image_extension_shape (imageURL : string) :
  exists body,
    imageExt imageURL = "." ++ body
    /\ containsByte (ch "/") body = false
    /\ containsByte (ch ".") body = false
    /\ (imageExt imageURL = ".jpg"
        \/ exists pre, imageURL = pre ++ imageExt imageURL).
Proof. apply image_extension_shape_aux. Qed.

(** ** Decimal numbers *)

Lemma uint_chars (sep : ascii) :
  countByte sep "0123456789" = 0%nat ->
  forall d, countByte sep (NilEmpty.string_of_uint d) = 0%nat.
Proof.
  intros H. cbn [countByte] in H.
  induction d as [|d IH|d IH|d IH|d IH|d IH|d IH|d IH|d IH|d IH|d IH];
    cbn [NilEmpty.string_of_uint countByte]; [reflexivity|..];
    rewrite IH; lia.
Qed.

Lemma decimal_chars (sep : ascii) (z : Z) :
  countByte sep "-0123456789" = 0%nat -> containsByte sep (decimal z) = false.
Proof.
  intros H. unfold containsByte. apply negb_false_iff, Nat.eqb_eq.
  assert (Hd : countByte sep "0123456789" = 0%nat)
    by (cbn [countByte] in *; lia).
  assert (Hu : forall d, countByte sep (NilZero.string_of_uint d) = 0%nat).
  { intros d. unfold NilZero.string_of_uint.
    destruct d; try apply (uint_chars sep Hd).
    cbn [countByte] in *. lia. }
  unfold decimal, NilZero.string_of_int.
  destruct (Z.to_int z) as [d|d]; [apply Hu|].
  cbn [countByte]. rewrite Hu. cbn [countByte] in H. lia.
Qed.

Lemma decimal_injective (a b : Z) : decimal a = decimal b -> a = b.
Proof.
  unfold decimal. intros H.
  assert (Hn : forall z, Z.to_int z <> Decimal.Pos Decimal.Nil
                         /\ Z.to_int z <> Decimal.Neg Decimal.Nil).
  { intros [|p|p]; cbn; split; try discriminate;
      intros E; inversion E as [E']; now apply DecimalPos.Unsigned.to_uint_nonnil in E'. }
  pose proof (NilZero.isi _ (proj1 (Hn a)) (proj2 (Hn a))) as Ha.
  pose proof (NilZero.isi _ (proj1 (Hn b)) (proj2 (Hn b))) as Hb.
  rewrite H, Hb in Ha. inversion Ha as [E].
  rewrite <- (DecimalZ.of_to a), <- (DecimalZ.of_to b). now rewrite E.
Qed.

Lemma splitByte_absent (sep : ascii) (s : string) :
  containsByte sep s = false -> splitByte sep s = [s].
Proof.
  induction s as [|c s IH]; intros H; [reflexivity|].
  apply containsByte_cons in H. destruct H as [Hc Hs].
  cbn [splitByte]. now rewrite Hc, (IH Hs).
Qed.

Lemma cutByte_at_first (sep : ascii) (a b : string) :
  containsByte sep a = false ->
  cutByte sep (a ++ String sep b) = (a, b, true).
Proof.
  induction a as [|c a IH]; intros H.
  - cbn [append cutByte]. now rewrite Ascii.eqb_refl.
  - apply containsByte_cons in H. destruct H as [Hc Ha].
    cbn [append cutByte]. now rewrite Hc, (IH Ha).
Qed.

Lemma append_cancel_l (a b c : string) : a ++ b = a ++ c -> b = c.
Proof. induction a as [|x a IH]; cbn; intros H; [exact H|]. inversion H. auto. Qed.

Lemma append_cancel_r (a b c : string) : a ++ c = b ++ c -> a = b.
Proof.
  intros H. apply (f_equal string_rev) in H.
  rewrite !string_rev_append in H. apply append_cancel_l in H.
  apply (f_equal string_rev) in H. now rewrite !string_rev_involutive in H.
Qed.

Lemma generated_name (timestamp randomSuffix : Z) (ext : string) :
  containsByte (ch "/") ext = false ->
  generateUniqueFilename timestamp randomSuffix ext
  = "downloads/img_" ++ decimal timestamp ++ "_" ++ decimal randomSuffix
    ++ ext.
Proof.
  intros Hext.
  set (rest := decimal timestamp ++ "_" ++ decimal randomSuffix ++ ext).
  assert (Hrest : containsByte (ch "/") rest = false).
  { unfold rest. apply containsByte_append;
      [apply decimal_chars; reflexivity|].
    apply (containsByte_append _ "_"); [reflexivity|].
    apply containsByte_append; [apply decimal_chars; reflexivity|exact Hext]. }
  unfold generateUniqueFilename, FilePath.Join, downloadDir.
  change (nonEmpty "downloads") with true. cbv iota.
  fold rest. unfold FilePath.Clean.
  cbn [append String.eqb Ascii.eqb Bool.eqb ch andb splitByte].
  assert (Hsplit : splitByte (ch "/") rest = [rest])
    by now apply splitByte_absent.
  cbn [ch] in Hsplit. rewrite Hsplit.
  reflexivity.
Qed.

(** A downloaded image is written directly into the download directory:
    its name is [downloads/img_], the time stamp, [_], the random suffix
    and the extension, with no further slash. *)
Theorem download_name_in_directory (imageURL : string)
  (timestamp randomSuffix : Z) :
  exists name,
    generateUniqueFilename timestamp randomSuffix (imageExt imageURL)
    = downloadDir ++ "/" ++ name
    /\ name = "img_" ++ decimal timestamp ++ "_" ++ decimal randomSuffix
              ++ imageExt imageURL
    /\ containsByte (ch "/") name = false.
Proof.
  destruct (image_extension_shape_aux imageURL) as (body & E & Hs & _).
  assert (Hext : containsByte (ch "/") (imageExt imageURL) = false).
  { rewrite E. apply (containsByte_append _ "."); [reflexivity|exact Hs]. }
  eexists. split; [|split; [reflexivity|]].
  - rewrite (generated_name _ _ _ Hext). reflexivity.
  - apply (containsByte_append _ "img_"); [reflexivity|].
    apply containsByte_append; [apply decimal_chars; reflexivity|].
    apply (containsByte_append _ "_"); [reflexivity|].
    apply containsByte_append; [apply decimal_chars; reflexivity|exact Hext].
Qed.

Lemma generated_name_injective (t1 r1 t2 r2 : Z) (ext : string) :
  containsByte (ch "/") ext = false ->
  generateUniqueFilename t1 r1 ext = generateUniqueFilename t2 r2 ext ->
  t1 = t2 /\ r1 = r2.
Proof.
  intros Hext H. rewrite !generated_name in H by exact Hext.
  apply (append_cancel_l "downloads/img_") in H.
  assert (Hcut : forall t r,
            cutByte (ch "_") (decimal t ++ "_" ++ decimal r ++ ext)
            = (decimal t, decimal r ++ ext, true)).
  { intros t r. apply (cutByte_at_first (ch "_")).
    apply decimal_chars. reflexivity. }
  pose proof (Hcut t1 r1) as H1. rewrite H, Hcut in H1.
  inversion H1 as [[Ht Hr]].
  apply append_cancel_r in Hr.
  split; apply decimal_injective; congruence.
Qed.

(** Two file names generated with the same extension differ as soon as the
    time stamps or the random suffixes differ. *)
Theorem generated_names_differ (t1 r1 t2 r2 : Z) (ext : string) :
  containsByte (ch "/") ext = false ->
  t1 <> t2 \/ r1 <> r2 ->
  generateUniqueFilename t1 r1 ext <> generateUniqueFilename t2 r2 ext.
Proof.
  intros Hext Hne H.
  destruct (generated_name_injective t1 r1 t2 r2 ext Hext H) as [Ht Hr].
  destruct Hne; contradiction.
Qed.

Lemma generated_names_differ_witness :
  generateUniqueFilename 1700000000000000000 42 ".png"
  <> generateUniqueFilename 1700000000000000000 43 ".png".
Proof.
  apply (generated_names_differ 1700000000000000000 42
           1700000000000000000 43 ".png").
  - reflexivity.
  - right. discriminate.
Defined.

(** ** Links and images in the text *)

Lemma occursIn_left (piece a b : string) :
  occursIn piece a -> occursIn piece (a ++ b).
Proof.
  intros (pre & post & ->). exists pre, (post ++ b).
  now rewrite !append_assoc.
Qed.

Lemma occursIn_right (piece a b : string) :
  occursIn piece b -> occursIn piece (a ++ b).
Proof.
  intros (pre & post & ->). exists (a ++ pre), post.
  now rewrite !append_assoc.
Qed.

Lemma occursIn_self (piece : string) : occursIn piece piece.
Proof. exists "", "". now rewrite append_nil_r. Qed.

Lemma shows_append (text t : string) (links ls : list LinkInfo)
  (images ims : list ImageInfo) :
  shows (text, links, images) -> shows (t, ls, ims) ->
  shows (text ++ t, (links ++ ls)%list, (images ++ ims)%list).
Proof.
  unfold shows. cbn [fst snd]. intros [H1 H2] [H3 H4].
  split; apply Forall_app; split;
    (eapply Forall_impl; [|eassumption]); cbn beta; intros x Hx;
    first [now apply occursIn_left | now apply occursIn_right].
Qed.

Section ShowFacts.
Context {U : URLPackage}.
Variable currentURL : string.

Local Abbreviation extract := (extractFunc currentURL).

Lemma childLoop_shows cs :
  Forall (fun c => forall cl lc, shows (fst (extract c cl lc))) cs ->
  forall text links images lc,
    shows (text, links, images) ->
    shows (fst (childLoop extract cs text links images lc)).
Proof.
  induction 1 as [|c cs Hc _ IH]; intros text links images lc Hacc;
    cbn [childLoop]; [exact Hacc|].
  specialize (Hc lc lc).
  destruct (extract c lc lc) as [[[t ls] ims] lc']. cbn [fst] in Hc.
  apply IH. now apply shows_append.
Qed.

Lemma extractFunc_shows : forall n cl lc, shows (fst (extract n cl lc)).
Proof.
  induction n as [t d attrs cs IH] using Node_tree_ind. intros cl lc.
  assert (Hleaf : forall text : string, shows (text, [], []))
    by (intros text; split; constructor).
  assert (Hloop : forall k, shows (fst (childLoop extract cs "" [] [] k)))
    by (intros k; apply childLoop_shows; [exact IH|apply Hleaf]).
  assert (Himg : forall alt src : string, shows (alt ++ " ", [], [mkImage src alt])).
  { intros alt src. split; [constructor|].
    constructor; [apply occursIn_self|constructor]. }
  cbn [extractFunc].
  destruct (isElement t d "script" || isElement t d "style");
    [apply Hleaf|].
  destruct (isElement t d "a").
  - destruct (linkTextLoop extract cs cl "" lc) as [linkText lc1].
    destruct (nonEmpty (TrimSpace linkText)
              && nonEmpty (lastAttr "href" attrs "")).
    + cbn [fst]. split; [|constructor].
      constructor; [apply occursIn_self|constructor].
    + destruct (isElement t d "img" && nonEmpty (lastAttr "src" attrs ""));
        [apply Himg|].
      destruct (NodeType_eqb t TextNode); [|apply Hloop].
      destruct (nonEmpty (TrimSpace d)); apply Hleaf.
  - destruct (isElement t d "img" && nonEmpty (lastAttr "src" attrs ""));
      [apply Himg|].
    destruct (NodeType_eqb t TextNode); [|apply Hloop].
    destruct (nonEmpty (TrimSpace d)); apply Hleaf.
Qed.
End ShowFacts.

(** Every link and every image an extraction returns is visible in its
    text: the display text of the link, and the alt text of the image,
    occur there followed by a space. *)
Theorem links_and_images_are_shown {U : URLPackage} (currentURL : string)
  (node : Node) :
  Forall (fun l =>
            occursIn (Text l ++ " ") (fst (fst (extractContent currentURL node))))
         (snd (fst (extractContent currentURL node)))
  /\ Forall (fun im =>
               occursIn (Alt im ++ " ")
                        (fst (fst (extractContent currentURL node))))
            (snd (extractContent currentURL node)).
Proof. apply (extractFunc_shows currentURL node 0 0). Qed.
